(** * Search and filter registries (React context providers)

    A shallow embedding of
      - [src/searchContextFiles/types/search.types.ts]
      - [src/searchContextFiles/contexts/search.context.tsx]
      - [src/searchContextFiles/components/search.component.tsx]
      - the filter context ([FilterProvider] / [useFilter]) and its types.

    Modelling conventions.

    - A JavaScript object used as a dictionary ([Search], [Filters], the
      object built by [Object.fromEntries]) is the [gmap string _] of its own
      properties; its prototype is [Object.prototype], taken to be the
      standard one with nothing added to it.  A spread, a computed key,
      [delete] and [Object.keys] see own properties only; [k in o] and
      [o[k]] also see the names of [Object.prototype]
      ([Js.Object_prototype]).  The enumeration order of [Object.keys] is
      the order of [map_to_list] (no operation of the registries depends on
      it, which the lemmas on [foldl] below show).
    - [updateUrlParam], [resetSearchInstances] and [resetFilters] are
      embedded for the calls in which every id they look up in the store is
      an own key of the store or is no name of [Object.prototype]; on the
      other calls the source throws a [TypeError] or writes an object of the
      prototype chain, which their embeddings do not describe; a statement
      that depends on the difference excludes those calls by a hypothesis.
    - [string | null] is [option string], [null] being [None]; an optional
      field ([hasUrlSync?], [category?]) is an [option], [undefined] being
      [None].
    - [setState (prev => f prev)] is the function [f] from the previous
      store to the next one; a callback closing over the rendered snapshot
      takes that snapshot as an argument.
    - The reset operations that write [updated[id].query.value = null]
      (resp. [updated[id].value = null]) through a shallow copy are embedded
      by the store they return.  The statements proved about them only
      speak of the keys and of the payloads that were reset, which do not
      depend on whether entry objects are shared.
    - [router.push] is a navigation request; its argument
      [`${pathname}?${currentParams.toString()}`] is kept as the pair of its
      two components.
    - The module [FilterRefs] gives the reset of the filter provider a
      second time, on object references, and the last sections relate the
      two readings. *)

From stdpp Require Import gmap strings list fin_maps.


(** ** JavaScript idioms used by both providers *)

Module Js.

(** The outcome of a call that may [throw new Error(message)]. *)
Inductive Result (A : Type) : Type :=
| Return (a : A)
| Throw (message : string).
Arguments Return {A} a.
Arguments Throw {A} message.

(** [Object.keys(o)]. *)
Definition keys {V : Type} (o : gmap string V) : list string :=
  (map_to_list o).*1.

(** [{ ...a, ...b }]: the properties of [b] win over those of [a]. *)
Definition spread {V : Type} (a b : gmap string V) : gmap string V :=
  b ∪ a.

(** The property names of the standard [Object.prototype], which every
    object literal inherits. *)
Definition Object_prototype : list string :=
  [ "constructor"; "hasOwnProperty"; "isPrototypeOf"; "propertyIsEnumerable";
    "toLocaleString"; "toString"; "valueOf"; "__proto__";
    "__defineGetter__"; "__defineSetter__";
    "__lookupGetter__"; "__lookupSetter__" ].

(** Whether [k] names a property of [Object.prototype].  Read on an object
    that has no own property [k], such a name yields a built-in function
    (the object [Object.prototype] itself for ["__proto__"]): a truthy value
    other than [undefined], with no property [query], [hasUrlSync] or
    [value]. *)
Definition inherited (k : string) : bool :=
  bool_decide (k ∈ Object_prototype).

(** [k in o]: an own property, or one of the prototype. *)
Definition has_key {V : Type} (k : string) (o : gmap string V) : bool :=
  bool_decide (is_Some (o !! k)) || inherited k.

(** Truthiness of a [string | null | undefined]: only a non-empty string
    is truthy. *)
Definition truthy_string (v : option string) : bool :=
  match v with
  | Some s => negb (String.eqb s "")
  | None => false
  end.

(** [v || ''] on a [string | null | undefined]. *)
Definition or_empty (v : option string) : string :=
  match v with
  | Some s => if truthy_string v then s else ""
  | None => ""
  end.

(** [b || false] on a [boolean | undefined]. *)
Definition or_false (b : option bool) : bool :=
  match b with
  | Some true => true
  | _ => false
  end.

(** A call [f(a, b, extra)] of a function declared with two parameters:
    JavaScript binds [a] and [b] and discards the surplus argument. *)
Definition call_with_surplus {A B C R : Type} (f : A → B → R)
    (a : A) (b : B) (extra : C) : R :=
  f a b.

End Js.

(** ** React contexts *)

Module React.

(** [createContext(defaultValue)]. *)
Record Context (A : Type) : Type := createContext { defaultValue : A }.
Arguments createContext {A} defaultValue.
Arguments defaultValue {A} c.

(** [useContext(c)]: the value of the nearest enclosing [c.Provider]
    ([provider = Some v]), or the creation default of [c] when the caller
    is rendered outside every provider ([provider = None]). *)
Definition useContext {A : Type} (c : Context A) (provider : option A) : A :=
  match provider with
  | Some v => v
  | None => defaultValue c
  end.

End React.

(** ** Navigation collaborator ([next/navigation], [URLSearchParams]) *)

Module Navigation.

(** A navigation request [router.push(`${pathname}?${params}`)]. *)
Record Href : Type := mkHref {
  href_pathname : string;
  href_params : gmap string string
}.

(** What the hooks [usePathname()] and [useSearchParams()] return: the
    current path and the current parameters, an ordered sequence of
    name/value pairs in which a name may occur more than once. *)
Record Location : Type := mkLocation {
  pathname : string;
  urlSearchParams : list (string * string)
}.

(** [Object.fromEntries(entries)]: a later pair overwrites an earlier one
    of the same name. *)
Definition fromEntries (entries : list (string * string)) : gmap string string :=
  foldl (λ o kv, <[kv.1 := kv.2]> o) ∅ entries.

(** [new URLSearchParams(Object.fromEntries(urlSearchParams.entries()))]. *)
Definition currentParams (loc : Location) : gmap string string :=
  fromEntries (urlSearchParams loc).

(** [params.set(name, value)] on parameters with one value per name. *)
Definition set (name value : string) (params : gmap string string) :
    gmap string string :=
  <[name := value]> params.

(** [params.get(name)] on the parameters of the location: the value of the
    first pair called [name], or [null]. *)
Definition get (name : string) (params : list (string * string)) :
    option string :=
  snd <$> List.find (λ kv, bool_decide (kv.1 = name)) params.

End Navigation.

(** ** [search.types.ts] and [search.context.tsx] *)

Module SearchCtx.
Import Js React Navigation.

(** [interface SearchValue { value: string | null }]. *)
Record SearchValue : Type := mkSearchValue { value : option string }.

(** The entry type [{ query: SearchValue; hasUrlSync?: boolean }]. *)
Record SearchInstance : Type := mkSearchInstance {
  query : SearchValue;
  hasUrlSync : option bool
}.

(** [interface Search { [id: string]: ... }]. *)
Abbreviation Search := (gmap string SearchInstance).

#[export] Instance SearchValue_eq_dec : EqDecision SearchValue.
Proof. solve_decision. Defined.
#[export] Instance SearchInstance_eq_dec : EqDecision SearchInstance.
Proof. solve_decision. Defined.

(** *** The callbacks of [SearchProvider] *)

Definition addSearchInstance (id : string) (query : SearchValue)
    (hasUrlSync : bool) (prev : Search) : Search :=
  <[id := {| query := query; hasUrlSync := Some hasUrlSync |}]> prev.

Definition addSearchInstances (instances prev : Search) : Search :=
  spread prev instances.

Definition updateSearchInstance (id : string) (query : SearchValue)
    (prev : Search) : Search :=
  <[id := {| query := query;
             hasUrlSync := Some (or_false (prev !! id ≫= hasUrlSync)) |}]> prev.

Definition updateSearchInstances (instances prev : Search) : Search :=
  spread prev instances.

(** [searchInstances[id]?.query.value || '']. *)
Definition paramValue (searchInstances : Search) (id : string) : string :=
  or_empty (searchInstances !! id ≫= λ e, value (query e)).

(** [updateUrlParam] is declared with the two parameters [id] and
    [hasUrlSync]; the result is the list of navigation requests issued.
    With the flag on, the embedding covers the ids that are an own key of
    the store or no name of [Object.prototype]: for an inherited name that
    is not an own key, [searchInstances[id]?.query.value] reads [.value] of
    [undefined] and the source throws. *)
Definition updateUrlParam (searchInstances : Search) (loc : Location)
    (id : string) (hasUrlSync : bool) : list Href :=
  if negb hasUrlSync then []
  else
    let currentParams := currentParams loc in
    let currentParams := set id (paramValue searchInstances id) currentParams in
    [ {| href_pathname := pathname loc; href_params := currentParams |} ].

Definition updateUrlParams (searchInstances : Search) (loc : Location) :
    list Href :=
  let currentParams := currentParams loc in
  let currentParams :=
    foldl (λ params id, set id (paramValue searchInstances id) params)
          currentParams (keys searchInstances) in
  [ {| href_pathname := pathname loc; href_params := currentParams |} ].

(** The object [getSearchInstance] returns when [searchInstances[id]] is
    truthy, [{ query: searchInstances[id].query, hasUrlSync:
    searchInstances[id].hasUrlSync }]: a copy of the entry when [id] is an
    own key, and an object whose two fields are [undefined] when
    [searchInstances[id]] is a value inherited from [Object.prototype]. *)
Inductive Retrieved : Type :=
| Copy (e : SearchInstance)
| Hollow.

#[export] Instance Retrieved_eq_dec : EqDecision Retrieved.
Proof. solve_decision. Defined.

Definition getSearchInstance (searchInstances : Search) (id : string) :
    option Retrieved :=
  match searchInstances !! id with
  | Some e => Some (Copy {| query := query e; hasUrlSync := hasUrlSync e |})
  | None => if inherited id then Some Hollow else None
  end.

(** The object built by [getSearchInstances]: its own properties, and its
    prototype when an assignment replaced it ([None] stands for
    [Object.prototype]). *)
Record Retrieval : Type := mkRetrieval {
  own : gmap string Retrieved;
  prototype : option Retrieved
}.

(** [acc[currId] = instance]: an assignment to ["__proto__"] runs the setter
    inherited from [Object.prototype], which makes [instance] the prototype
    of [acc] and creates no property; any other assignment creates or
    overwrites the own property [currId]. *)
Definition assign (acc : Retrieval) (currId : string) (instance : Retrieved) :
    Retrieval :=
  if bool_decide (currId = "__proto__")
  then {| own := own acc; prototype := Some instance |}
  else {| own := <[currId := instance]> (own acc); prototype := prototype acc |}.

Definition getSearchInstances (searchInstances : Search) (ids : list string) :
    Retrieval :=
  foldl (λ acc currId,
           match getSearchInstance searchInstances currId with
           | Some instance => assign acc currId instance
           | None => acc
           end) {| own := ∅; prototype := None |} ids.

Definition hasSearchInstance (searchInstances : Search) (id : string) : bool :=
  has_key id searchInstances.

Definition hasSearchInstances (searchInstances instances : Search) : bool :=
  forallb (hasSearchInstance searchInstances) (keys instances).

Definition hasAnySearchInstance (searchInstances : Search) : bool :=
  bool_decide (0 < length (keys searchInstances)).

Definition removeSearchInstance (id : string) (prev : Search) : Search :=
  delete id prev.

Definition removeSearchInstances (instances prev : Search) : Search :=
  foldl (λ updated id, delete id updated) prev (keys instances).

Definition removeAllSearchInstances (prev : Search) : Search := ∅.

Definition resetSearchInstance (id : string) (prev : Search) : Search :=
  <[id := {| query := {| value := None |}; hasUrlSync := None |}]> prev.

(** [if (updated[id]) { updated[id].query.value = null; }], for an [id]
    that is an own key of [updated] or no name of [Object.prototype]: for an
    inherited name that is not an own key the guard passes and the write to
    [.value] of an [undefined] [query] throws. *)
Definition resetQuery (updated : Search) (id : string) : Search :=
  match updated !! id with
  | Some e =>
      <[id := {| query := {| value := None |}; hasUrlSync := hasUrlSync e |}]>
        updated
  | None => updated
  end.

Definition resetSearchInstances (instances prev : Search) : Search :=
  foldl resetQuery prev (keys instances).

Definition resetAllSearchInstances (prev : Search) : Search :=
  foldl resetQuery prev (keys prev).

(** *** [interface SearchContextValue]

    A callback that returns [void] is described by its effect: the state
    update it queues ([Search → Search]) or the navigation requests it
    issues ([list Href]). *)
Record SearchContextValue : Type := mkSearchContextValue {
  ctx_searchInstances : Search;
  ctx_addSearchInstance : string → SearchValue → bool → Search → Search;
  ctx_addSearchInstances : Search → Search → Search;
  ctx_updateSearchInstance : string → SearchValue → Search → Search;
  ctx_updateSearchInstances : Search → Search → Search;
  ctx_updateUrlParam : string → bool → list Href;
  ctx_updateUrlParams : Search → list Href;
  ctx_getSearchInstance : string → option Retrieved;
  ctx_getSearchInstances : list string → option Retrieval;
  ctx_hasSearchInstance : string → bool;
  ctx_hasSearchInstances : Search → bool;
  ctx_hasAnySearchInstance : unit → bool;
  ctx_removeSearchInstance : string → Search → Search;
  ctx_removeSearchInstances : Search → Search → Search;
  ctx_removeAllSearchInstances : Search → Search;
  ctx_resetSearchInstance : string → Search → Search;
  ctx_resetSearchInstances : Search → Search → Search;
  ctx_resetAllSearchInstances : Search → Search
}.

(** [const defaultValues: SearchContextValue]: every callback does
    nothing. *)
Definition defaultValues : SearchContextValue := {|
  ctx_searchInstances := ∅;
  ctx_addSearchInstance := λ _ _ _ prev, prev;
  ctx_addSearchInstances := λ _ prev, prev;
  ctx_updateSearchInstance := λ _ _ prev, prev;
  ctx_updateSearchInstances := λ _ prev, prev;
  ctx_updateUrlParam := λ _ _, [];
  ctx_updateUrlParams := λ _, [];
  ctx_getSearchInstance := λ _, None;
  ctx_getSearchInstances := λ _, None;
  ctx_hasSearchInstance := λ _, false;
  ctx_hasSearchInstances := λ _, false;
  ctx_hasAnySearchInstance := λ _, false;
  ctx_removeSearchInstance := λ _ prev, prev;
  ctx_removeSearchInstances := λ _ prev, prev;
  ctx_removeAllSearchInstances := λ prev, prev;
  ctx_resetSearchInstance := λ _ prev, prev;
  ctx_resetSearchInstances := λ _ prev, prev;
  ctx_resetAllSearchInstances := λ prev, prev
|}.

(** [createContext<SearchContextValue | undefined>(defaultValues)]. *)
Definition SearchContext : Context (option SearchContextValue) :=
  createContext (Some defaultValues).

(** The [value] that [SearchProvider] hands to [SearchContext.Provider]
    when its state is [searchInstances] and the location is [loc]. *)
Definition SearchProvider (searchInstances : Search) (loc : Location) :
    SearchContextValue := {|
  ctx_searchInstances := searchInstances;
  ctx_addSearchInstance := addSearchInstance;
  ctx_addSearchInstances := addSearchInstances;
  ctx_updateSearchInstance := updateSearchInstance;
  ctx_updateSearchInstances := updateSearchInstances;
  ctx_updateUrlParam := updateUrlParam searchInstances loc;
  ctx_updateUrlParams := λ _, updateUrlParams searchInstances loc;
  ctx_getSearchInstance := getSearchInstance searchInstances;
  ctx_getSearchInstances := λ ids, Some (getSearchInstances searchInstances ids);
  ctx_hasSearchInstance := hasSearchInstance searchInstances;
  ctx_hasSearchInstances := hasSearchInstances searchInstances;
  ctx_hasAnySearchInstance := λ _, hasAnySearchInstance searchInstances;
  ctx_removeSearchInstance := removeSearchInstance;
  ctx_removeSearchInstances := removeSearchInstances;
  ctx_removeAllSearchInstances := removeAllSearchInstances;
  ctx_resetSearchInstance := resetSearchInstance;
  ctx_resetSearchInstances := resetSearchInstances;
  ctx_resetAllSearchInstances := resetAllSearchInstances
|}.

(** [useSearchContext]; [provider] is the value of the enclosing
    [SearchContext.Provider], if there is one. *)
Definition useSearchContext (provider : option (option SearchContextValue)) :
    Result SearchContextValue :=
  let context := useContext SearchContext provider in
  match context with
  | None => Throw "useSearchContext must be used within a SearchProvider"
  | Some context => Return context
  end.

End SearchCtx.

(** ** [search.component.tsx] *)

Module SearchComponent.
Import Js Navigation SearchCtx.

(** The part of a [React.KeyboardEvent<HTMLInputElement>] that the handler
    reads: [e.key] and [e.currentTarget.value]. *)
Record KeyboardEvent : Type := mkKeyboardEvent {
  key : string;
  currentTarget_value : string
}.

(** [handleKeyDown] of a [SearchComponent] rendered with the props [id] and
    [hasUrlSync] under the context value [ctx].  It returns the state update
    queued with the provider and the navigation requests issued.  The call
    [updateUrlParam(id, hasUrlSync, searchValue)] passes three arguments. *)
Definition handleKeyDown (ctx : SearchContextValue) (id : string)
    (hasUrlSync : bool) (e : KeyboardEvent) : (Search → Search) * list Href :=
  if String.eqb (key e) "Enter" then
    let searchValue := currentTarget_value e in
    (ctx_updateSearchInstance ctx id {| value := Some searchValue |},
     if hasUrlSync
     then call_with_surplus (ctx_updateUrlParam ctx) id hasUrlSync searchValue
     else [])
  else (λ prev, prev, []).

(** The body of the [useEffect] of a [SearchComponent] rendered with the
    props [id] and [hasUrlSync] at the location [loc]: the query read from
    the URL, [urlValue ? { value: urlValue } : { value: null }]. *)
Definition initialQuery (loc : Location) (id : string) : SearchValue :=
  let urlValue := get id (urlSearchParams loc) in
  if truthy_string urlValue then {| value := urlValue |}
  else {| value := None |}.

(** The state update queued when the effect runs (on mount). *)
Definition effect (ctx : SearchContextValue) (loc : Location) (id : string)
    (hasUrlSync : bool) : Search → Search :=
  ctx_addSearchInstance ctx id (initialQuery loc id) hasUrlSync.

(** The state update queued by the cleanup the effect returns (on
    unmount). *)
Definition cleanup (ctx : SearchContextValue) (id : string) : Search → Search :=
  ctx_removeSearchInstance ctx id.

End SearchComponent.

(** ** The filter types and the filter context *)

Module FilterCtx.
Import Js React.

(** [interface FilterValue { value: unknown | null; category?: string }];
    [V] is the type of the payloads other than [null]. *)
Record FilterValue (V : Type) : Type := mkFilterValue {
  value : option V;
  category : option string
}.
Arguments mkFilterValue {V} value category.
Arguments value {V} f.
Arguments category {V} f.

(** [interface Filters { [id: string]: FilterValue }]. *)
Abbreviation Filters V := (gmap string (FilterValue V)).

(** [interface FilterContextValue]. *)
Record FilterContextValue (V : Type) : Type := mkFilterContextValue {
  ctx_filter : Filters V;
  ctx_addFilters : Filters V → Filters V → Filters V;
  ctx_removeFilters : list string → Filters V → Filters V;
  ctx_hasFilters : list string → bool;
  ctx_resetFilters : list string → Filters V → Filters V;
  ctx_resetAllFilters : Filters V → Filters V;
  ctx_updateFilters : Filters V → Filters V → Filters V
}.
Arguments mkFilterContextValue {V}.
Arguments ctx_filter {V} f.
Arguments ctx_hasFilters {V} f.

Section provider.
Context {V : Type}.

Definition addFilters (filters prev : Filters V) : Filters V :=
  spread prev filters.

Definition updateFilters (filters prev : Filters V) : Filters V :=
  spread prev filters.

(** [delete updated[id]] on an own, configurable property (or on a missing
    one) succeeds, so the [catch] branch around it is never entered. *)
Definition removeFilters (filterIds : list string) (prev : Filters V) :
    Filters V :=
  foldl (λ updated id, delete id updated) prev filterIds.

(** [filterIds.every((id) => filters[id] !== undefined)]: [filters[id]] is
    the own entry, or else the value inherited from [Object.prototype]. *)
Definition hasFilters (filters : Filters V) (filterIds : list string) : bool :=
  forallb (λ id, bool_decide (filters !! id ≠ None) || inherited id) filterIds.

(** [if (updated[id]) { updated[id].value = null; }], as the store it
    leaves.  For a name of [Object.prototype] that is not an own key the
    guard passes as well and the write goes to the inherited object (to
    [Object.prototype] itself for ["__proto__"]): the store is left as it
    is, and the write outside the store is not described. *)
Definition resetValue (updated : Filters V) (id : string) : Filters V :=
  match updated !! id with
  | Some f => <[id := {| value := None; category := category f |}]> updated
  | None => updated
  end.

Definition resetFilters (filterIds : list string) (prev : Filters V) :
    Filters V :=
  foldl resetValue prev filterIds.

(** [setFilters({})]. *)
Definition resetAllFilters (prev : Filters V) : Filters V := ∅.

(** [createContext<FilterContextValue | undefined>(undefined)]. *)
Definition FilterContext : Context (option (FilterContextValue V)) :=
  createContext None.

(** The [value] that [FilterProvider] hands to [FilterContext.Provider]
    when its state is [filters]. *)
Definition FilterProvider (filters : Filters V) : FilterContextValue V := {|
  ctx_filter := filters;
  ctx_addFilters := addFilters;
  ctx_removeFilters := removeFilters;
  ctx_hasFilters := hasFilters filters;
  ctx_resetFilters := resetFilters;
  ctx_resetAllFilters := resetAllFilters;
  ctx_updateFilters := updateFilters
|}.

(** [useFilter]; [provider] is the value of the enclosing
    [FilterContext.Provider], if there is one. *)
Definition useFilter (provider : option (option (FilterContextValue V))) :
    Result (FilterContextValue V) :=
  let context := useContext FilterContext provider in
  match context with
  | None => Throw "useFilter must be used within a FilterProvider"
  | Some context => Return context
  end.

End provider.

End FilterCtx.

(** ** The filter callbacks on object references

    The callbacks of [FilterProvider] once more, this time with the entries
    as heap objects: a [Filters] object maps an id to a reference, and the
    heap maps a reference to the [FilterValue] object it denotes.  A spread
    copies references; [updated[id].value = null] writes the object that
    [updated[id]] refers to. *)

Module FilterRefs.
Import Js FilterCtx.

(** The [FilterValue] objects allocated so far, by reference. *)
Abbreviation Heap V := (gmap nat (FilterValue V)).

(** A [Filters] object: the reference stored under each id. *)
Abbreviation FiltersRef := (gmap string nat).

Section refs.
Context {V : Type}.

(** What a reader of the snapshot [filters] sees in the heap [heap]:
    [filters[id]] dereferenced, for every id. *)
Definition read (heap : Heap V) (filters : FiltersRef) : Filters V :=
  omap (λ r, heap !! r) filters.

Definition addFilters (filters prev : FiltersRef) (heap : Heap V) :
    Heap V * FiltersRef :=
  (heap, spread prev filters).

(** [if (updated[id]) { updated[id].value = null; }]: the write goes to the
    object, the property [id] of [updated] keeps its reference. *)
Definition resetValue (updated : FiltersRef) (heap : Heap V) (id : string) :
    Heap V :=
  match updated !! id with
  | Some r =>
      alter (λ f, {| value := None; category := category f |}) r heap
  | None => heap
  end.

(** [const updated = { ...prev }] holds the references of [prev]. *)
Definition resetFilters (filterIds : list string) (prev : FiltersRef)
    (heap : Heap V) : Heap V * FiltersRef :=
  let updated := spread prev (∅ : FiltersRef) in
  (foldl (resetValue updated) heap filterIds, updated).

End refs.

End FilterRefs.

(** ** Concrete stores used in the examples below *)

Module Examples.
Import Navigation SearchCtx.

(** A search registry holding one synchronized entry whose stored query is
    ["old"]. *)
Definition store_q_old : Search :=
  {[ "q" := {| query := {| value := Some "old" |}; hasUrlSync := Some true |} ]}.

(** A search registry holding one entry without the optional flag, as
    [resetSearchInstance "q"] leaves it. *)
Definition store_q_reset : Search :=
  {[ "q" := {| query := {| value := None |}; hasUrlSync := None |} ]}.

(** The location [/items] with no query parameter. *)
Definition items_page : Location :=
  {| pathname := "/items"; urlSearchParams := [] |}.

(** A filter registry holding one entry. *)
Definition filters_status : FilterCtx.Filters string :=
  {[ "status" := {| FilterCtx.value := Some "active";
                    FilterCtx.category := Some "status" |} ]}.

(** The location [/items?q=potions&page=2]. *)
Definition potions_page : Location :=
  {| pathname := "/items";
     urlSearchParams := [("q", "potions"); ("page", "2")] |}.

(** A search registry with two entries, one of them synchronized. *)
Definition store_q_p : Search :=
  {[ "q" := {| query := {| value := Some "old" |}; hasUrlSync := Some true |};
     "p" := {| query := {| value := Some "1" |}; hasUrlSync := Some false |} ]}.

(** Two filter ids that refer to one and the same object. *)
Definition shared_refs : FilterRefs.FiltersRef := {[ "a" := 0; "b" := 0 ]}.

(** Two filter ids that refer to two objects. *)
Definition separate_refs : FilterRefs.FiltersRef := {[ "a" := 0; "b" := 1 ]}.

(** A heap with two filter objects. *)
Definition two_objects : FilterRefs.Heap string :=
  {[ 0 := {| FilterCtx.value := Some "active"; FilterCtx.category := Some "status" |};
     1 := {| FilterCtx.value := Some "red"; FilterCtx.category := None |} ]}.

End Examples.

(** ** Sequences of single calls, to compare the bulk operations with *)

Module Sequences.
Import SearchCtx.

(** [addSearchInstance] called once per entry of a list, in the order of
    the list, each call passing the [query] of the entry and its
    [hasUrlSync] (read as [false] when the entry has none). *)
Definition addSequentially (entries : list (string * SearchInstance))
    (prev : Search) : Search :=
  foldl (λ s kv, addSearchInstance kv.1 (query kv.2)
                   (default false (hasUrlSync kv.2)) s) prev entries.

End Sequences.

(** * Properties *)

(** ** Folding over the keys of an object *)

(** Case analysis on the membership tests of a goal about the keys visited
    by a loop. *)
Ltac split_visited :=
  repeat match goal with
         | |- context [decide (?k ∈ ?l)] => destruct (decide (k ∈ l)) as [?|?]
         end;
  repeat match goal with
         | H : _ ∈ [] |- _ => by apply not_elem_of_nil in H
         | H : _ ∈ _ :: _ |- _ => apply elem_of_cons in H
         | H : ¬ (_ ∈ _ :: _) |- _ => rewrite not_elem_of_cons in H
         end.

Section js_lemmas.
Context {V : Type}.
Implicit Types (o : gmap string V) (k : string) (l : list string).

Lemma elem_of_keys o k : k ∈ Js.keys o ↔ is_Some (o !! k).
Proof.
  unfold Js.keys. rewrite list_elem_of_fmap. split.
  - intros [[k' v] [-> Hin]]. apply elem_of_map_to_list in Hin. by exists v.
  - intros [v Hv]. exists (k, v). split; [done|]. by apply elem_of_map_to_list.
Qed.

Lemma elem_of_keys_dom o k : k ∈ Js.keys o ↔ k ∈ dom o.
Proof. by rewrite elem_of_keys, elem_of_dom. Qed.

Lemma keys_empty : Js.keys (∅ : gmap string V) = [].
Proof. unfold Js.keys. by rewrite map_to_list_empty. Qed.

Lemma has_key_true o k :
  Js.has_key k o = true ↔ is_Some (o !! k) ∨ Js.inherited k = true.
Proof. unfold Js.has_key. by rewrite orb_true_iff, bool_decide_eq_true. Qed.

Lemma has_key_false o k :
  Js.has_key k o = false ↔ o !! k = None ∧ Js.inherited k = false.
Proof.
  unfold Js.has_key.
  by rewrite orb_false_iff, bool_decide_eq_false, eq_None_not_Some.
Qed.

(** A name of [Object.prototype] is present in every object. *)
Lemma has_key_inherited o k : Js.inherited k = true → Js.has_key k o = true.
Proof. intros Hk. apply has_key_true. by right. Qed.

(** For any other name, presence is that of an own property. *)
Lemma has_key_own o k :
  Js.inherited k = false → Js.has_key k o = bool_decide (is_Some (o !! k)).
Proof. intros Hk. unfold Js.has_key. by rewrite Hk, orb_false_r. Qed.

Lemma lookup_spread (a b : gmap string V) k :
  Js.spread a b !! k = match b !! k with Some v => Some v | None => a !! k end.
Proof.
  unfold Js.spread. rewrite lookup_union.
  destruct (b !! k), (a !! k); done.
Qed.

(** Deleting a list of keys one after the other. *)
Lemma lookup_foldl_delete l o k :
  foldl (λ updated id, delete id updated) o l !! k
  = if decide (k ∈ l) then None else o !! k.
Proof.
  revert o. induction l as [|id l IH]; intros o; cbn [foldl].
  - split_visited. done.
  - rewrite IH. rewrite lookup_delete. split_visited; try case_decide; intuition congruence.
Qed.

Lemma dom_foldl_delete l o :
  dom (foldl (λ updated id, delete id updated) o l) = dom o ∖ list_to_set l.
Proof.
  apply set_eq. intros k.
  rewrite elem_of_dom, lookup_foldl_delete, elem_of_difference,
    elem_of_list_to_set, elem_of_dom.
  destruct (decide (k ∈ l)); [|tauto].
  split; [intros [? ?]; done | tauto].
Qed.

(** The size left after deleting a set of keys. *)
Lemma size_difference_inter (X Y : gset string) :
  (size (X ∖ Y) = size X - size (X ∩ Y) ∧ size (X ∩ Y) ≤ size X)%nat.
Proof.
  assert (HX : X = (X ∖ Y) ∪ (X ∩ Y)).
  { apply set_eq. intros x. rewrite elem_of_union, elem_of_difference,
      elem_of_intersection. destruct (decide (x ∈ Y)); tauto. }
  assert (Hsz : size X = size (X ∖ Y) + size (X ∩ Y)).
  { rewrite HX at 1. apply size_union. intros x.
    rewrite elem_of_difference, elem_of_intersection. tauto. }
  lia.
Qed.

(** Writing a list of keys one after the other. *)
Lemma lookup_foldl_insert {W : Type} (f : string → W) l (p : gmap string W) k :
  foldl (λ params id, <[id := f id]> params) p l !! k
  = if decide (k ∈ l) then Some (f k) else p !! k.
Proof.
  revert p. induction l as [|id l IH]; intros p; cbn [foldl].
  - split_visited. done.
  - rewrite IH. rewrite lookup_insert. split_visited; try case_decide; intuition congruence.
Qed.

(** Rewriting the entries of a list of keys in place. *)
Lemma lookup_foldl_alter (g : V → V)
    (step : gmap string V → string → gmap string V) l o k :
  (∀ o' id, step o' id = alter g id o') →
  (∀ v, g (g v) = g v) →
  foldl step o l !! k = if decide (k ∈ l) then g <$> o !! k else o !! k.
Proof.
  intros Hstep Hidem. revert o. induction l as [|id l IH]; intros o; cbn [foldl].
  - split_visited. done.
  - rewrite IH, Hstep. rewrite lookup_alter.
    split_visited; try case_decide; try (intuition congruence).
    subst k. destruct (o !! id); simpl; [by rewrite Hidem | done].
Qed.

End js_lemmas.

Lemma or_empty_default (v : option string) : Js.or_empty v = default "" v.
Proof.
  destruct v as [s|]; [|done]. simpl.
  destruct (String.eqb_spec s ""); simpl; congruence.
Qed.

Import Js React Navigation SearchCtx SearchComponent.

(** ** Reading a provider from a hook *)

Section hooks.
Context {V : Type}.

Lemma useSearchContext_inside_provider (searchInstances : Search) (loc : Location) :
  useSearchContext (Some (Some (SearchProvider searchInstances loc)))
  = Return (SearchProvider searchInstances loc).
Proof. reflexivity. Qed.

Lemma useFilter_inside_provider (filters : FilterCtx.Filters V) :
  FilterCtx.useFilter (Some (Some (FilterCtx.FilterProvider filters)))
  = Return (FilterCtx.FilterProvider filters).
Proof. reflexivity. Qed.

Lemma useFilter_outside_provider :
  FilterCtx.useFilter (V := V) None
  = Throw "useFilter must be used within a FilterProvider".
Proof. reflexivity. Qed.

End hooks.

(** C1 (as the code behaves).  Outside every provider the two hooks differ:
    [useFilter] throws its fixed message, whereas [useSearchContext] reads
    the creation default of [SearchContext], which is the object
    [defaultValues] and not [undefined], so its guard does not fire and the
    hook returns [defaultValues] without throwing. *)
Theorem useSearchContext_outside_provider_returns_defaultValues :
  useSearchContext None = Return defaultValues ∧
  FilterCtx.useFilter (V := string) None
  = Throw "useFilter must be used within a FilterProvider".
Proof. split; reflexivity. Qed.

(** ** Resetting entries *)

Section reset.
Context {V : Type}.
Implicit Types (prev : Search) (filters : FilterCtx.Filters V) (id : string).

Lemma resetQuery_alter prev id :
  resetQuery prev id
  = alter (λ e, {| query := {| value := None |}; hasUrlSync := hasUrlSync e |})
          id prev.
Proof.
  unfold resetQuery. apply map_eq. intros k. rewrite lookup_alter.
  destruct (prev !! id) as [e|] eqn:He; case_decide as Hk; subst;
    rewrite ?lookup_insert_eq, ?lookup_insert_ne, ?He by done; done.
Qed.

Lemma resetValue_alter filters id :
  FilterCtx.resetValue filters id
  = alter (λ f, {| FilterCtx.value := None;
                   FilterCtx.category := FilterCtx.category f |}) id filters.
Proof.
  unfold FilterCtx.resetValue. apply map_eq. intros k. rewrite lookup_alter.
  destruct (filters !! id) as [f|] eqn:Hf; case_decide as Hk; subst;
    rewrite ?lookup_insert_eq, ?lookup_insert_ne, ?Hf by done; done.
Qed.

(** [resetSearchInstance] writes the entry whether or not [id] was there. *)
Lemma resetSearchInstance_lookup prev id :
  resetSearchInstance id prev !! id
  = Some {| query := {| value := None |}; hasUrlSync := None |}.
Proof. apply lookup_insert_eq. Qed.

Lemma resetSearchInstance_has prev id :
  hasSearchInstance (resetSearchInstance id prev) id = true.
Proof.
  apply has_key_true. left. rewrite resetSearchInstance_lookup. by eexists.
Qed.

(** [resetFilters [id]] on an id of the store keeps the key and clears the
    payload. *)
Lemma resetFilters_singleton_present filters id f :
  filters !! id = Some f →
  FilterCtx.resetFilters [id] filters !! id
  = Some {| FilterCtx.value := None; FilterCtx.category := FilterCtx.category f |}
  ∧ FilterCtx.hasFilters (FilterCtx.resetFilters [id] filters) [id] = true.
Proof.
  intros Hf. unfold FilterCtx.resetFilters, FilterCtx.hasFilters. simpl.
  unfold FilterCtx.resetValue. rewrite Hf, lookup_insert_eq.
  split; [done|]. rewrite andb_true_r. apply orb_true_iff. left.
  by apply bool_decide_eq_true.
Qed.

(** [resetFilters [id]] on an id that is not in the store changes nothing. *)
Lemma resetFilters_singleton_absent filters id :
  filters !! id = None →
  FilterCtx.resetFilters [id] filters = filters
  ∧ FilterCtx.hasFilters (FilterCtx.resetFilters [id] filters) [id]
    = Js.inherited id.
Proof.
  intros Hf. unfold FilterCtx.resetFilters, FilterCtx.hasFilters. simpl.
  unfold FilterCtx.resetValue. rewrite Hf.
  split; [done|]. rewrite andb_true_r, Hf.
  rewrite bool_decide_eq_false_2; [done|]. intros Hne. by apply Hne.
Qed.

Lemma resetAllSearchInstances_lookup prev id :
  resetAllSearchInstances prev !! id
  = (λ e, {| query := {| value := None |}; hasUrlSync := hasUrlSync e |})
      <$> prev !! id.
Proof.
  unfold resetAllSearchInstances.
  rewrite (lookup_foldl_alter _ resetQuery _ _ _ resetQuery_alter) by done.
  destruct (decide (id ∈ keys prev)) as [Hin|Hnin]; [done|].
  rewrite elem_of_keys, <- eq_None_not_Some in Hnin. by rewrite Hnin.
Qed.

End reset.

(** C2 (as the code behaves).  On the empty store, where ["q"] does not
    exist, [resetSearchInstance "q"] is not a no-op: it creates the key ["q"]
    with a null query and no [hasUrlSync] flag, so [hasSearchInstance "q"]
    turns from false to true and the store grows by one entry. *)
Theorem resetSearchInstance_creates_missing_key :
  hasSearchInstance ∅ "q" = false ∧
  hasSearchInstance (resetSearchInstance "q" ∅) "q" = true ∧
  resetSearchInstance "q" ∅ !! "q"
  = Some {| query := {| value := None |}; hasUrlSync := None |} ∧
  size (resetSearchInstance "q" ∅) = 1.
Proof.
  split; [apply has_key_false; split; [apply lookup_empty | reflexivity]|].
  split; [apply resetSearchInstance_has|].
  split; [apply resetSearchInstance_lookup|].
  unfold resetSearchInstance. rewrite insert_empty. apply map_size_singleton.
Qed.

(** C3, counterexample.  [resetAllFilters] does not preserve the keys: on a
    store holding the single filter ["status"] it returns a store without
    that key, of size 0 instead of 1. *)
Lemma resetAllFilters_drops_keys :
  Examples.filters_status !! "status"
  = Some {| FilterCtx.value := Some "active"; FilterCtx.category := Some "status" |}
  ∧ FilterCtx.resetAllFilters Examples.filters_status !! "status" = None
  ∧ size (FilterCtx.resetAllFilters Examples.filters_status)
    ≠ size Examples.filters_status.
Proof.
  unfold Examples.filters_status, FilterCtx.resetAllFilters.
  split; [apply lookup_singleton_eq|]. split; [apply lookup_empty|].
  rewrite map_size_empty, map_size_singleton. discriminate.
Qed.

(** C3 (amended).  [resetAllSearchInstances] preserves every key of the
    store (same key set, same size) and sets the query payload of every
    entry to null, keeping its [hasUrlSync]; [resetAllFilters] instead
    replaces the store by the empty mapping. *)
Theorem resetAll_search_keeps_keys_filter_clears :
  (∀ prev : Search,
      dom (resetAllSearchInstances prev) = dom prev
      ∧ size (resetAllSearchInstances prev) = size prev
      ∧ ∀ id, resetAllSearchInstances prev !! id
              = (λ e, {| query := {| value := None |};
                         hasUrlSync := hasUrlSync e |}) <$> prev !! id)
  ∧ (∀ (V : Type) (filters : FilterCtx.Filters V),
        FilterCtx.resetAllFilters filters = ∅).
Proof.
  split; [|done]. intros prev.
  assert (Hdom : dom (resetAllSearchInstances prev) = dom prev).
  { apply set_eq. intros id.
    rewrite !elem_of_dom, resetAllSearchInstances_lookup, fmap_is_Some. done. }
  split; [done|]. split.
  - by rewrite <- !size_dom, Hdom.
  - apply resetAllSearchInstances_lookup.
Qed.

(** ** Pushing entries to the URL *)

Section url.
Implicit Types (searchInstances : Search) (loc : Location) (id : string).

Lemma paramValue_lookup searchInstances id :
  paramValue searchInstances id
  = match searchInstances !! id with
    | Some e => default "" (value (query e))
    | None => ""
    end.
Proof.
  unfold paramValue. rewrite or_empty_default. by destruct (searchInstances !! id).
Qed.

(** With the flag off, [updateUrlParam] requests no navigation. *)
Lemma updateUrlParam_disabled searchInstances loc id :
  updateUrlParam searchInstances loc id false = [].
Proof. reflexivity. Qed.

(** With the flag on, [updateUrlParam] requests one navigation to the
    current path, the parameter [id] carrying the stored payload. *)
Lemma updateUrlParam_enabled searchInstances loc id :
  updateUrlParam searchInstances loc id true
  = [ {| href_pathname := pathname loc;
         href_params := <[id := paramValue searchInstances id]> (currentParams loc) |} ].
Proof. reflexivity. Qed.

(** A third argument has no influence on what [updateUrlParam] does. *)
Lemma updateUrlParam_surplus searchInstances loc id (hasUrlSync : bool)
    (queryValue : string) :
  call_with_surplus (updateUrlParam searchInstances loc) id hasUrlSync queryValue
  = updateUrlParam searchInstances loc id hasUrlSync.
Proof. reflexivity. Qed.

End url.

(** C4 (as the code behaves).  The entry ["q"] stores ["old"] and the page is
    [/items] without parameters.  Calling [updateUrlParam] with the flag on
    and the explicit value ["new"] requests [/items] with [q = "old"]: the
    explicit value is dropped and the stored payload is used.  The same
    happens when the user commits ["new"] with Enter in a synchronized
    [SearchComponent]: the queued update stores ["new"], while the
    navigation request still carries ["old"]. *)
Theorem updateUrlParam_ignores_explicit_value :
  call_with_surplus (updateUrlParam Examples.store_q_old Examples.items_page)
                    "q" true "new"
  = [ {| href_pathname := "/items"; href_params := {[ "q" := "old" ]} |} ]
  ∧ (handleKeyDown (SearchProvider Examples.store_q_old Examples.items_page)
                   "q" true {| key := "Enter"; currentTarget_value := "new" |}).2
    = [ {| href_pathname := "/items"; href_params := {[ "q" := "old" ]} |} ]
  ∧ ((handleKeyDown (SearchProvider Examples.store_q_old Examples.items_page)
                    "q" true {| key := "Enter"; currentTarget_value := "new" |}).1
       Examples.store_q_old) !! "q"
    = Some {| query := {| value := Some "new" |}; hasUrlSync := Some true |}.
Proof.
  assert (Hnav : updateUrlParam Examples.store_q_old Examples.items_page "q" true
                 = [ {| href_pathname := "/items";
                        href_params := {[ "q" := "old" ]} |} ]).
  { rewrite updateUrlParam_enabled, paramValue_lookup.
    unfold Examples.store_q_old. rewrite lookup_singleton_eq. simpl.
    unfold currentParams, fromEntries. simpl. by rewrite insert_empty. }
  split; [exact Hnav|]. split; [exact Hnav|].
  simpl. unfold updateSearchInstance, Examples.store_q_old.
  rewrite lookup_insert_eq, lookup_singleton_eq. reflexivity.
Qed.

(** ** Updating one entry *)

(** C5, counterexample.  The entry ["q"] exists without a [hasUrlSync] flag
    (the flag is [undefined]); after [updateSearchInstance "q"] the flag is
    [false], which is not its previous value. *)
Lemma updateSearchInstance_unset_flag_becomes_false :
  hasUrlSync <$> Examples.store_q_reset !! "q" = Some None
  ∧ hasUrlSync <$> updateSearchInstance "q" {| value := Some "x" |}
                     Examples.store_q_reset !! "q"
    = Some (Some false)
  ∧ hasUrlSync <$> updateSearchInstance "q" {| value := Some "x" |}
                     Examples.store_q_reset !! "q"
    ≠ hasUrlSync <$> Examples.store_q_reset !! "q".
Proof.
  unfold updateSearchInstance, Examples.store_q_reset.
  rewrite lookup_insert_eq, lookup_singleton_eq.
  split; [reflexivity|]. split; [reflexivity|]. discriminate.
Qed.

(** C5 (amended).  [updateSearchInstance id q] makes the query of [id]
    exactly [q] and leaves every other key unchanged.  The [hasUrlSync] of
    [id] afterwards is always a boolean: the previous flag when [id] was
    present with a flag that was set, and [false] when [id] was present
    with the flag unset or when [id] was not present. *)
Theorem updateSearchInstance_flag_and_frame (prev : Search) (id : string)
    (q : SearchValue) :
  (∀ e b, prev !! id = Some e → hasUrlSync e = Some b →
          updateSearchInstance id q prev !! id
          = Some {| query := q; hasUrlSync := Some b |})
  ∧ (∀ e, prev !! id = Some e → hasUrlSync e = None →
          updateSearchInstance id q prev !! id
          = Some {| query := q; hasUrlSync := Some false |})
  ∧ (prev !! id = None →
     updateSearchInstance id q prev !! id
     = Some {| query := q; hasUrlSync := Some false |})
  ∧ (∀ k, k ≠ id → updateSearchInstance id q prev !! k = prev !! k).
Proof.
  unfold updateSearchInstance. repeat split.
  - intros e b He Hb. rewrite lookup_insert_eq, He. simpl. rewrite Hb.
    by destruct b.
  - intros e He Hb. rewrite lookup_insert_eq, He. simpl. by rewrite Hb.
  - intros He. by rewrite lookup_insert_eq, He.
  - intros k Hk. by rewrite lookup_insert_ne.
Qed.

Lemma updateSearchInstance_flag_and_frame_witness :
  updateSearchInstance "q" {| value := Some "new" |} Examples.store_q_old !! "q"
  = Some {| query := {| value := Some "new" |}; hasUrlSync := Some true |}
  ∧ updateSearchInstance "q" {| value := Some "new" |} Examples.store_q_reset !! "q"
    = Some {| query := {| value := Some "new" |}; hasUrlSync := Some false |}
  ∧ updateSearchInstance "q" {| value := Some "new" |} ∅ !! "q"
    = Some {| query := {| value := Some "new" |}; hasUrlSync := Some false |}
  ∧ updateSearchInstance "q" {| value := Some "new" |} Examples.store_q_old !! "p"
    = Examples.store_q_old !! "p".
Proof.
  split; [|split; [|split]].
  - destruct (updateSearchInstance_flag_and_frame
                Examples.store_q_old "q" {| value := Some "new" |})
      as (Hset & _).
    apply (Hset {| query := {| value := Some "old" |}; hasUrlSync := Some true |}
                true); [apply lookup_singleton_eq | reflexivity].
  - destruct (updateSearchInstance_flag_and_frame
                Examples.store_q_reset "q" {| value := Some "new" |})
      as (_ & Hunset & _).
    apply (Hunset {| query := {| value := None |}; hasUrlSync := None |});
      [apply lookup_singleton_eq | reflexivity].
  - destruct (updateSearchInstance_flag_and_frame
                ∅ "q" {| value := Some "new" |})
      as (_ & _ & Hnew & _).
    apply Hnew, lookup_empty.
  - destruct (updateSearchInstance_flag_and_frame
                Examples.store_q_old "q" {| value := Some "new" |})
      as (_ & _ & _ & Hframe).
    apply Hframe. discriminate.
Defined.

(** ** Pushing every entry to the URL *)

(** C6.  [updateUrlParams] issues exactly one navigation request, to the
    current path; in its parameters every entry of the store, whatever its
    [hasUrlSync], appears under its id with its stored payload (the empty
    string when the payload is null), and the names that are not ids of the
    store keep the value they have in the current location. *)
Theorem updateUrlParams_sets_every_entry (searchInstances : Search)
    (loc : Location) :
  ∃ params : gmap string string,
    updateUrlParams searchInstances loc
    = [ {| href_pathname := pathname loc; href_params := params |} ]
    ∧ length (updateUrlParams searchInstances loc) = 1
    ∧ ∀ id, params !! id
            = match searchInstances !! id with
              | Some e => Some (default "" (value (query e)))
              | None => currentParams loc !! id
              end.
Proof.
  eexists. split; [reflexivity|]. split; [reflexivity|].
  intros id. unfold set.
  rewrite (lookup_foldl_insert (paramValue searchInstances)).
  rewrite paramValue_lookup.
  destruct (decide (id ∈ keys searchInstances)) as [Hin|Hnin].
  - apply elem_of_keys in Hin as [e He]. by rewrite He.
  - rewrite elem_of_keys, <- eq_None_not_Some in Hnin. by rewrite Hnin.
Qed.

(** ** Removing entries in bulk *)

Section remove.
Context {V : Type}.

Lemma removeFilters_lookup (filterIds : list string) (prev : FilterCtx.Filters V)
    (k : string) :
  FilterCtx.removeFilters filterIds prev !! k
  = if decide (k ∈ filterIds) then None else prev !! k.
Proof. apply lookup_foldl_delete. Qed.

Lemma removeFilters_size (filterIds : list string) (prev : FilterCtx.Filters V) :
  size (FilterCtx.removeFilters filterIds prev)
  = size prev - size (dom prev ∩ list_to_set filterIds)
  ∧ size (dom prev ∩ list_to_set filterIds) ≤ size prev.
Proof.
  unfold FilterCtx.removeFilters.
  rewrite <- !size_dom, dom_foldl_delete. apply size_difference_inter.
Qed.

End remove.

Lemma removeSearchInstances_lookup (instances prev : Search) (k : string) :
  removeSearchInstances instances prev !! k
  = if decide (k ∈ dom instances) then None else prev !! k.
Proof.
  unfold removeSearchInstances. rewrite lookup_foldl_delete.
  destruct (decide (k ∈ keys instances)) as [Hin|Hnin];
    destruct (decide (k ∈ dom instances)) as [Hd|Hnd];
    rewrite elem_of_keys_dom in *; done.
Qed.

Lemma removeSearchInstances_size (instances prev : Search) :
  size (removeSearchInstances instances prev)
  = size prev - size (dom prev ∩ dom instances)
  ∧ size (dom prev ∩ dom instances) ≤ size prev.
Proof.
  unfold removeSearchInstances.
  rewrite <- !size_dom, dom_foldl_delete.
  replace (list_to_set (keys instances) : gset string) with (dom instances).
  - apply size_difference_inter.
  - apply set_eq. intros k. by rewrite elem_of_list_to_set, elem_of_keys_dom.
Qed.

(** C7.  Bulk removal deletes exactly the listed keys: afterwards a listed
    key is absent and every other key maps to what it mapped to before, so
    a listed id that was not present changes nothing and nothing fails.
    The size of the result is the previous size minus the number of distinct
    listed ids present in the store.  This holds for [removeFilters] (ids
    given as an array, possibly with repetitions) and for
    [removeSearchInstances] (ids given as the keys of an object). *)
Theorem removeBulk_deletes_exactly_listed_present :
  (∀ (V : Type) (filterIds : list string) (prev : FilterCtx.Filters V),
      (∀ k, FilterCtx.removeFilters filterIds prev !! k
            = if decide (k ∈ filterIds) then None else prev !! k)
      ∧ size (FilterCtx.removeFilters filterIds prev)
        = size prev - size (dom prev ∩ list_to_set filterIds)
      ∧ size (dom prev ∩ list_to_set filterIds) ≤ size prev)
  ∧ (∀ (instances prev : Search),
        (∀ k, removeSearchInstances instances prev !! k
              = if decide (k ∈ dom instances) then None else prev !! k)
        ∧ size (removeSearchInstances instances prev)
          = size prev - size (dom prev ∩ dom instances)
        ∧ size (dom prev ∩ dom instances) ≤ size prev).
Proof.
  split.
  - intros V filterIds prev. split; [apply removeFilters_lookup|].
    apply removeFilters_size.
  - intros instances prev. split; [apply removeSearchInstances_lookup|].
    apply removeSearchInstances_size.
Qed.

(** ** Adding and updating in bulk *)

(** C8.  The bulk add and the bulk update of each registry return the same
    store on every input, and that store is the shallow merge of the input
    into the previous store: an id of the input maps to the supplied entry
    as a whole, any other id maps to what it mapped to before. *)
Theorem bulk_add_equals_bulk_update :
  (∀ (V : Type) (filters prev : FilterCtx.Filters V),
      FilterCtx.addFilters filters prev = FilterCtx.updateFilters filters prev
      ∧ ∀ id, FilterCtx.addFilters filters prev !! id
              = match filters !! id with
                | Some f => Some f
                | None => prev !! id
                end)
  ∧ (∀ (instances prev : Search),
        addSearchInstances instances prev = updateSearchInstances instances prev
        ∧ ∀ id, addSearchInstances instances prev !! id
                = match instances !! id with
                  | Some e => Some e
                  | None => prev !! id
                  end).
Proof.
  split.
  - intros V filters prev. split; [reflexivity|].
    intros id. apply lookup_spread.
  - intros instances prev. split; [reflexivity|].
    intros id. apply lookup_spread.
Qed.

(** ** Reading entries *)

(** C9.  After [addSearchInstance id q sync], whatever the store held
    before, [getSearchInstance id] returns the record with query [q] and
    [hasUrlSync = sync]. *)
Theorem addSearchInstance_getSearchInstance (prev : Search) (id : string)
    (q : SearchValue) (sync : bool) :
  getSearchInstance (addSearchInstance id q sync prev) id
  = Some (Copy {| query := q; hasUrlSync := Some sync |}).
Proof.
  unfold getSearchInstance, addSearchInstance. by rewrite lookup_insert_eq.
Qed.

Lemma getSearchInstance_lookup (searchInstances : Search) (id : string) :
  getSearchInstance searchInstances id
  = match searchInstances !! id with
    | Some e => Some (Copy e)
    | None => if inherited id then Some Hollow else None
    end.
Proof.
  unfold getSearchInstance. by destruct (searchInstances !! id) as [[]|].
Qed.

Lemma getSearchInstance_own (searchInstances : Search) (id : string)
    (e : SearchInstance) :
  searchInstances !! id = Some e →
  getSearchInstance searchInstances id = Some (Copy e).
Proof. intros He. by rewrite getSearchInstance_lookup, He. Qed.

Lemma inherited___proto__ : inherited "__proto__" = true.
Proof. reflexivity. Qed.

(** The own properties of the object [getSearchInstances] builds: what
    [getSearchInstance] returns for each requested id other than
    ["__proto__"]. *)
Lemma getSearchInstances_own_lookup (searchInstances : Search)
    (ids : list string) (k : string) :
  own (getSearchInstances searchInstances ids) !! k
  = if decide (k ∈ ids)
    then if decide (k = "__proto__") then None
         else getSearchInstance searchInstances k
    else None.
Proof.
  unfold getSearchInstances.
  assert (Hgen : ∀ acc : Retrieval,
             own (foldl (λ acc currId,
                           match getSearchInstance searchInstances currId with
                           | Some instance => assign acc currId instance
                           | None => acc
                           end) acc ids) !! k
             = if decide (k ∈ ids)
               then if decide (k = "__proto__") then own acc !! k
                    else match getSearchInstance searchInstances k with
                         | Some instance => Some instance
                         | None => own acc !! k
                         end
               else own acc !! k).
  { induction ids as [|id ids IH]; intros acc; cbn [foldl].
    - split_visited. done.
    - rewrite IH. unfold assign.
      destruct (getSearchInstance searchInstances id) as [instance|] eqn:Hid;
        destruct (decide (k = id)) as [->|Hne];
        try destruct (decide (id = "__proto__")) as [Hp|Hp];
        try rewrite (bool_decide_eq_true_2 _ Hp);
        try rewrite (bool_decide_eq_false_2 _ Hp);
        try case_bool_decide; cbn [own];
        rewrite ?lookup_insert_eq, ?lookup_insert_ne, ?Hid by done;
        split_visited; repeat case_decide;
        try destruct (getSearchInstance searchInstances k);
        intuition congruence. }
  rewrite Hgen. cbn [own]. rewrite lookup_empty.
  destruct (decide (k ∈ ids)); [|done].
  destruct (decide (k = "__proto__")); [done|].
  by destruct (getSearchInstance searchInstances k).
Qed.

Lemma getSearchInstances_prototype (searchInstances : Search)
    (ids : list string) :
  "__proto__" ∉ ids → prototype (getSearchInstances searchInstances ids) = None.
Proof.
  unfold getSearchInstances.
  assert (Hgen : ∀ acc : Retrieval,
             "__proto__" ∉ ids →
             prototype (foldl (λ acc currId,
                                 match getSearchInstance searchInstances currId with
                                 | Some instance => assign acc currId instance
                                 | None => acc
                                 end) acc ids)
             = prototype acc).
  { induction ids as [|id ids IH]; intros acc Hnin; cbn [foldl]; [done|].
    apply not_elem_of_cons in Hnin as [Hne Hnin]. rewrite IH by done.
    destruct (getSearchInstance searchInstances id); [|done].
    unfold assign. rewrite bool_decide_eq_false_2 by congruence. done. }
  intros Hnin. by rewrite Hgen.
Qed.

(** For requested ids none of which is a name of [Object.prototype], the
    object built is a mapping whose keys are the requested ids that are in
    the store, each with a copy of the stored entry. *)
Lemma getSearchInstances_plain_ids (searchInstances : Search)
    (ids : list string) :
  Forall (λ id, inherited id = false) ids →
  prototype (getSearchInstances searchInstances ids) = None
  ∧ ∀ k, own (getSearchInstances searchInstances ids) !! k
         = if decide (k ∈ ids) then Copy <$> searchInstances !! k else None.
Proof.
  intros Hplain. rewrite Forall_forall in Hplain. split.
  - apply getSearchInstances_prototype. intros Hin.
    apply Hplain in Hin. by rewrite inherited___proto__ in Hin.
  - intros k. rewrite getSearchInstances_own_lookup.
    destruct (decide (k ∈ ids)) as [Hin|Hnin]; [|done].
    pose proof (Hplain k Hin) as Hk.
    destruct (decide (k = "__proto__")) as [->|Hne];
      [by rewrite inherited___proto__ in Hk|].
    rewrite getSearchInstance_lookup, Hk. by destruct (searchInstances !! k).
Qed.

(** C10 (as the code behaves).  [getSearchInstances] does return a mapping
    and never [undefined], but on the empty store the request for
    ["toString"] is answered with a mapping that is not empty: it holds the
    key ["toString"], under which nothing is stored, with an object whose
    [query] and [hasUrlSync] are [undefined].  And the request for
    ["__proto__"], on a store that holds an entry under that id, is answered
    with a mapping without keys, the entry having become its prototype. *)
Theorem getSearchInstances_returns_inherited_name :
  ctx_getSearchInstances (SearchProvider ∅ Examples.items_page) ["toString"]
  = Some {| own := {[ "toString" := Hollow ]}; prototype := None |}
  ∧ (∅ : Search) !! "toString" = None
  ∧ ctx_getSearchInstances
      (SearchProvider
         (addSearchInstance "__proto__" {| value := Some "x" |} true ∅)
         Examples.items_page) ["__proto__"]
    = Some {| own := ∅;
              prototype :=
                Some (Copy {| query := {| value := Some "x" |};
                              hasUrlSync := Some true |}) |}.
Proof.
  split; [|split].
  - reflexivity.
  - apply lookup_empty.
  - reflexivity.
Qed.

(** * Further properties of the providers *)

(** ** Existence queries of the search registry *)

Section search_queries.
Implicit Types (searchInstances instances prev : Search) (id k : string).

Lemma hasSearchInstance_dom searchInstances id :
  hasSearchInstance searchInstances id
  = bool_decide (id ∈ dom searchInstances ∪ list_to_set Object_prototype).
Proof.
  unfold hasSearchInstance, has_key, inherited.
  destruct (bool_decide (id ∈ dom searchInstances ∪ list_to_set Object_prototype))
    eqn:Hin.
  - apply bool_decide_eq_true in Hin. apply orb_true_iff.
    apply elem_of_union in Hin as [Hown|Hproto].
    + left. apply bool_decide_eq_true. by apply elem_of_dom.
    + right. apply bool_decide_eq_true. by apply elem_of_list_to_set in Hproto.
  - apply bool_decide_eq_false in Hin. apply orb_false_iff. split.
    + apply bool_decide_eq_false. intros Hown. apply Hin, elem_of_union_l.
      by apply elem_of_dom.
    + apply bool_decide_eq_false. intros Hproto. apply Hin, elem_of_union_r.
      by apply elem_of_list_to_set.
Qed.

(** X1.  [hasSearchInstances instances] is true exactly when every id of
    [instances] is an id of the store or a name of [Object.prototype]; the
    entries of [instances] are not looked at, and the answer is true for the
    empty object. *)
Theorem hasSearchInstances_all_keys_present searchInstances instances :
  hasSearchInstances searchInstances instances
  = bool_decide
      (dom instances ⊆ dom searchInstances ∪ list_to_set Object_prototype)
  ∧ hasSearchInstances searchInstances ∅ = true.
Proof.
  assert (Hgen : ∀ i : Search,
             hasSearchInstances searchInstances i
             = bool_decide
                 (dom i ⊆ dom searchInstances ∪ list_to_set Object_prototype)).
  { intros i. unfold hasSearchInstances.
    destruct (bool_decide
                (dom i ⊆ dom searchInstances ∪ list_to_set Object_prototype))
      eqn:Hsub.
    - apply bool_decide_eq_true in Hsub. apply forallb_forall. intros k Hk.
      apply list_elem_of_In, elem_of_keys_dom, Hsub in Hk.
      rewrite hasSearchInstance_dom. by apply bool_decide_eq_true.
    - apply bool_decide_eq_false in Hsub. apply not_true_is_false. intros Hall.
      apply Hsub. intros k Hk. rewrite forallb_forall in Hall.
      apply elem_of_keys_dom, list_elem_of_In, Hall in Hk.
      rewrite hasSearchInstance_dom in Hk. by apply bool_decide_eq_true in Hk. }
  split; [apply Hgen|]. rewrite Hgen. apply bool_decide_eq_true.
  rewrite dom_empty_L. apply empty_subseteq.
Qed.

(** X2.  [hasAnySearchInstance] is true exactly when the store is not
    empty: it is false after [removeAllSearchInstances] and true after any
    [addSearchInstance]. *)
Theorem hasAnySearchInstance_nonempty searchInstances id (q : SearchValue)
    (sync : bool) :
  hasAnySearchInstance searchInstances = bool_decide (searchInstances ≠ ∅)
  ∧ hasAnySearchInstance (removeAllSearchInstances searchInstances) = false
  ∧ hasAnySearchInstance (addSearchInstance id q sync searchInstances) = true.
Proof.
  assert (Hgen : ∀ s : Search, hasAnySearchInstance s = bool_decide (s ≠ ∅)).
  { intros s. unfold hasAnySearchInstance, keys. apply bool_decide_ext.
    rewrite length_fmap, length_map_to_list.
    rewrite <- map_size_non_empty_iff. lia. }
  split; [apply Hgen|]. split.
  - rewrite Hgen. apply bool_decide_eq_false. intros Hne. by apply Hne.
  - rewrite Hgen. apply bool_decide_eq_true. apply insert_non_empty.
Qed.

(** X3.  After [removeSearchInstance id] the store has no own entry under
    [id]: [hasSearchInstance] and [getSearchInstance] answer for [id] as
    they do on the empty store (false and [undefined], except for a name of
    [Object.prototype]); every other id maps to what it mapped to before,
    and the store has one entry less when [id] was a key of it and the same
    number otherwise. *)
Theorem removeSearchInstance_removes_one prev id :
  hasSearchInstance (removeSearchInstance id prev) id = inherited id
  ∧ getSearchInstance (removeSearchInstance id prev) id
    = (if inherited id then Some Hollow else None)
  ∧ (∀ k, removeSearchInstance id prev !! k
          = if decide (k = id) then None else prev !! k)
  ∧ size (removeSearchInstance id prev)
    = size prev - (if bool_decide (id ∈ dom prev) then 1 else 0).
Proof.
  unfold removeSearchInstance. split; [|split; [|split]].
  - unfold hasSearchInstance, has_key. rewrite lookup_delete_eq.
    rewrite bool_decide_eq_false_2; [done|]. by intros [? ?].
  - by rewrite getSearchInstance_lookup, lookup_delete_eq.
  - intros k. rewrite lookup_delete. by destruct (decide (id = k)), (decide (k = id)).
  - rewrite map_size_delete. case_bool_decide as Hin.
    + apply elem_of_dom in Hin as [e He]. rewrite He. lia.
    + apply not_elem_of_dom in Hin. rewrite Hin. simpl. lia.
Qed.

End search_queries.

(** ** Bulk reset of the search registry *)

Section search_reset.
Implicit Types (instances prev : Search) (id k : string).

Lemma resetSearchInstances_lookup instances prev k :
  resetSearchInstances instances prev !! k
  = if decide (k ∈ dom instances)
    then (λ e, {| query := {| value := None |}; hasUrlSync := hasUrlSync e |})
           <$> prev !! k
    else prev !! k.
Proof.
  unfold resetSearchInstances.
  rewrite (lookup_foldl_alter _ resetQuery _ _ _ resetQuery_alter) by done.
  destruct (decide (k ∈ keys instances)) as [Hin|Hnin];
    destruct (decide (k ∈ dom instances)) as [Hd|Hnd];
    rewrite elem_of_keys_dom in *; done.
Qed.

(** X4.  When every listed id that is a name of [Object.prototype] is a
    key of the store (so that no guard reads an inherited value),
    [resetSearchInstances] creates no key and removes none, keeps the
    [hasUrlSync] of every entry, and leaves a null query under every listed
    id that is in the store. *)
Theorem resetSearchInstances_keeps_keys_and_flags instances prev :
  (∀ k, k ∈ dom instances → inherited k = true → is_Some (prev !! k)) →
  dom (resetSearchInstances instances prev) = dom prev
  ∧ (∀ k, hasUrlSync <$> resetSearchInstances instances prev !! k
          = hasUrlSync <$> prev !! k)
  ∧ (∀ k, k ∈ dom instances →
          query <$> resetSearchInstances instances prev !! k
          = (λ _, {| value := None |}) <$> prev !! k).
Proof.
  intros _. split; [|split].
  - apply set_eq. intros k. rewrite !elem_of_dom, resetSearchInstances_lookup.
    destruct (decide (k ∈ dom instances)); [|done]. by rewrite fmap_is_Some.
  - intros k. rewrite resetSearchInstances_lookup.
    destruct (decide (k ∈ dom instances)); [|done]. by destruct (prev !! k).
  - intros k Hk. rewrite resetSearchInstances_lookup.
    rewrite decide_True by done. by destruct (prev !! k).
Qed.

Lemma resetSearchInstances_keeps_keys_and_flags_witness :
  query <$> resetSearchInstances Examples.store_q_reset Examples.store_q_p !! "q"
  = Some {| value := None |}
  ∧ hasUrlSync <$> resetSearchInstances Examples.store_q_reset Examples.store_q_p !! "q"
    = Some (Some true).
Proof.
  assert (Hown : ∀ k, k ∈ dom Examples.store_q_reset → inherited k = true →
                      is_Some (Examples.store_q_p !! k)).
  { intros k Hk _. unfold Examples.store_q_reset in Hk.
    rewrite dom_singleton_L in Hk. apply elem_of_singleton in Hk as ->.
    unfold Examples.store_q_p. rewrite lookup_insert_eq. by eexists. }
  destruct (resetSearchInstances_keeps_keys_and_flags
              Examples.store_q_reset Examples.store_q_p Hown)
    as (_ & Hflag & Hquery).
  split.
  - rewrite Hquery.
    + unfold Examples.store_q_p. by rewrite lookup_insert_eq.
    + unfold Examples.store_q_reset. rewrite dom_singleton_L.
      by apply elem_of_singleton.
  - rewrite Hflag. unfold Examples.store_q_p. by rewrite lookup_insert_eq.
Defined.

(** X5.  The single reset and the bulk reset treat the sync flag
    differently.  After [resetSearchInstance id] the entry has no
    [hasUrlSync] any more, so a following [updateSearchInstance] writes
    [hasUrlSync = false] whatever the flag was before the reset; after
    [resetSearchInstances] on an object listing [id] (every listed name of
    [Object.prototype] being a key of the store), the same update keeps the
    flag the entry had. *)
Theorem reset_then_update_flag prev id (q : SearchValue) :
  getSearchInstance (resetSearchInstance id prev) id
  = Some (Copy {| query := {| value := None |}; hasUrlSync := None |})
  ∧ getSearchInstance (updateSearchInstance id q (resetSearchInstance id prev)) id
    = Some (Copy {| query := q; hasUrlSync := Some false |})
  ∧ (∀ instances e,
       (∀ k, k ∈ dom instances → inherited k = true → is_Some (prev !! k)) →
       id ∈ dom instances → prev !! id = Some e →
       getSearchInstance
         (updateSearchInstance id q (resetSearchInstances instances prev)) id
       = Some (Copy {| query := q;
                       hasUrlSync := Some (or_false (hasUrlSync e)) |})).
Proof.
  split; [|split].
  - by rewrite getSearchInstance_lookup, resetSearchInstance_lookup.
  - rewrite getSearchInstance_lookup. unfold updateSearchInstance.
    by rewrite lookup_insert_eq, resetSearchInstance_lookup.
  - intros instances e _ Hin He. rewrite getSearchInstance_lookup.
    unfold updateSearchInstance.
    rewrite lookup_insert_eq, resetSearchInstances_lookup.
    rewrite decide_True by done. by rewrite He.
Qed.

Lemma reset_then_update_flag_witness :
  getSearchInstance
    (updateSearchInstance "q" {| value := Some "new" |}
       (resetSearchInstances Examples.store_q_reset Examples.store_q_old)) "q"
  = Some (Copy {| query := {| value := Some "new" |};
                  hasUrlSync := Some true |}).
Proof.
  destruct (reset_then_update_flag
              Examples.store_q_old "q" {| value := Some "new" |})
    as (_ & _ & Hbulk).
  apply (Hbulk Examples.store_q_reset
               {| query := {| value := Some "old" |}; hasUrlSync := Some true |}).
  - intros k Hk _. unfold Examples.store_q_reset in Hk.
    rewrite dom_singleton_L in Hk. apply elem_of_singleton in Hk as ->.
    unfold Examples.store_q_old. rewrite lookup_singleton_eq. by eexists.
  - unfold Examples.store_q_reset. rewrite dom_singleton_L.
    by apply elem_of_singleton.
  - apply lookup_singleton_eq.
Defined.

(** X6.  Resetting twice is the same as resetting once, for the bulk reset
    and for the reset of all entries, and resetting all entries of the empty
    store leaves it empty. *)
Theorem reset_idempotent instances prev :
  resetSearchInstances instances (resetSearchInstances instances prev)
  = resetSearchInstances instances prev
  ∧ resetAllSearchInstances (resetAllSearchInstances prev)
    = resetAllSearchInstances prev
  ∧ resetAllSearchInstances ∅ = ∅.
Proof.
  split; [|split].
  - apply map_eq. intros k. rewrite !resetSearchInstances_lookup.
    destruct (decide (k ∈ dom instances)); [|done]. by destruct (prev !! k).
  - apply map_eq. intros k. rewrite !resetAllSearchInstances_lookup.
    by destruct (prev !! k).
  - apply map_eq. intros k. by rewrite resetAllSearchInstances_lookup, lookup_empty.
Qed.

End search_reset.

(** ** The filter registry *)

Section filters.
Context {V : Type}.
Implicit Types (filters prev : FilterCtx.Filters V) (filterIds ids : list string)
  (id k : string).

Lemma hasFilters_Forall filters filterIds :
  FilterCtx.hasFilters filters filterIds = true
  ↔ Forall (λ id, id ∈ dom filters ∨ inherited id = true) filterIds.
Proof.
  unfold FilterCtx.hasFilters. rewrite forallb_forall, Forall_forall.
  split; intros Hall id Hid.
  - apply list_elem_of_In, Hall, orb_true_iff in Hid as [Hown|Hproto].
    + left. apply bool_decide_eq_true in Hown.
      apply elem_of_dom. by apply not_eq_None_Some.
    + by right.
  - apply orb_true_iff.
    apply list_elem_of_In, Hall in Hid as [Hown|Hproto]; [left | by right].
    apply bool_decide_eq_true. by apply not_eq_None_Some, elem_of_dom.
Qed.

Lemma resetFilters_lookup filterIds prev k :
  FilterCtx.resetFilters filterIds prev !! k
  = if decide (k ∈ filterIds)
    then (λ f, {| FilterCtx.value := None;
                  FilterCtx.category := FilterCtx.category f |}) <$> prev !! k
    else prev !! k.
Proof.
  unfold FilterCtx.resetFilters.
  by rewrite (lookup_foldl_alter _ FilterCtx.resetValue _ _ _ resetValue_alter).
Qed.

Lemma resetFilters_dom filterIds prev :
  dom (FilterCtx.resetFilters filterIds prev) = dom prev.
Proof.
  apply set_eq. intros k. rewrite !elem_of_dom, resetFilters_lookup.
  destruct (decide (k ∈ filterIds)); [|done]. by rewrite fmap_is_Some.
Qed.

Lemma hasFilters_bool_decide filters filterIds :
  FilterCtx.hasFilters filters filterIds
  = bool_decide
      (Forall (λ id, id ∈ dom filters ∨ inherited id = true) filterIds).
Proof.
  destruct (bool_decide
              (Forall (λ id, id ∈ dom filters ∨ inherited id = true) filterIds))
    eqn:Hall.
  - apply bool_decide_eq_true in Hall. by apply hasFilters_Forall.
  - apply bool_decide_eq_false in Hall. apply not_true_is_false.
    by rewrite hasFilters_Forall.
Qed.

(** X7.  [hasFilters ids] is true exactly when every listed id is an id of
    the store, whatever its payload, or a name of [Object.prototype]; it is
    true for the empty list. *)
Theorem hasFilters_all_present filters filterIds :
  FilterCtx.hasFilters filters filterIds
  = bool_decide
      (Forall (λ id, id ∈ dom filters ∨ inherited id = true) filterIds)
  ∧ FilterCtx.hasFilters filters [] = true.
Proof. split; [apply hasFilters_bool_decide | done]. Qed.

(** X8.  [resetFilters] creates no key and removes none, keeps the
    [category] of every entry and leaves a null payload under every listed
    id that is in the store.  Unless it lists ["__proto__"] on a store that
    has no such key (the call that writes [Object.prototype]), it does not
    change the answer of [hasFilters]. *)
Theorem resetFilters_keeps_keys_and_categories filterIds prev :
  dom (FilterCtx.resetFilters filterIds prev) = dom prev
  ∧ (("__proto__" ∈ filterIds → is_Some (prev !! "__proto__")) →
     ∀ ids, FilterCtx.hasFilters (FilterCtx.resetFilters filterIds prev) ids
            = FilterCtx.hasFilters prev ids)
  ∧ (∀ k, FilterCtx.category <$> FilterCtx.resetFilters filterIds prev !! k
          = FilterCtx.category <$> prev !! k)
  ∧ (∀ k, k ∈ filterIds →
          FilterCtx.value <$> FilterCtx.resetFilters filterIds prev !! k
          = (λ _, None) <$> prev !! k).
Proof.
  split; [apply resetFilters_dom|]. split; [|split].
  - intros _ ids. destruct (FilterCtx.hasFilters prev ids) eqn:Hhas.
    + apply hasFilters_Forall. rewrite resetFilters_dom.
      by apply hasFilters_Forall.
    + apply not_true_is_false. rewrite hasFilters_Forall, resetFilters_dom.
      rewrite <- hasFilters_Forall. by rewrite Hhas.
  - intros k. rewrite resetFilters_lookup.
    destruct (decide (k ∈ filterIds)); [|done]. by destruct (prev !! k).
  - intros k Hk. rewrite resetFilters_lookup, decide_True by done.
    by destruct (prev !! k).
Qed.

End filters.

Lemma resetFilters_keeps_keys_and_categories_witness :
  FilterCtx.value <$> FilterCtx.resetFilters ["status"; "color"]
                        Examples.filters_status !! "status"
  = Some None
  ∧ FilterCtx.hasFilters
      (FilterCtx.resetFilters ["status"; "color"] Examples.filters_status)
      ["status"]
    = FilterCtx.hasFilters Examples.filters_status ["status"].
Proof.
  destruct (resetFilters_keeps_keys_and_categories
              ["status"; "color"] Examples.filters_status)
    as (_ & Hhas & _ & Hvalue).
  split.
  - rewrite Hvalue; [|by left].
    unfold Examples.filters_status. by rewrite lookup_singleton_eq.
  - apply Hhas. intros Hin.
    apply elem_of_cons in Hin as [Hin|Hin]; [discriminate|].
    apply list_elem_of_singleton in Hin. discriminate.
Defined.

Section filters_compose.
Context {V : Type}.
Implicit Types (filters prev : FilterCtx.Filters V) (filterIds ids : list string)
  (id k : string).

Lemma removeFilters_dom filterIds prev :
  dom (FilterCtx.removeFilters filterIds prev) = dom prev ∖ list_to_set filterIds.
Proof. apply dom_foldl_delete. Qed.

(** X9.  After [removeFilters filterIds], [hasFilters ids] holds exactly
    when every id of [ids] is a name of [Object.prototype], or was a key of
    the store and is not listed for removal. *)
Theorem removeFilters_then_hasFilters filterIds prev ids :
  FilterCtx.hasFilters (FilterCtx.removeFilters filterIds prev) ids
  = forallb (λ id, inherited id
                   || bool_decide (id ∈ dom prev) && bool_decide (id ∉ filterIds))
            ids.
Proof.
  apply eq_true_iff_eq.
  rewrite hasFilters_Forall, forallb_forall, Forall_forall.
  split; intros Hall id Hid.
  - apply orb_true_iff. apply list_elem_of_In in Hid.
    destruct (Hall id Hid) as [Hown|Hproto]; [right | by left].
    rewrite removeFilters_dom, elem_of_difference, elem_of_list_to_set in Hown.
    destruct Hown as [Hown Hkept].
    apply andb_true_iff. split; by apply bool_decide_eq_true.
  - apply list_elem_of_In, Hall, orb_true_iff in Hid as [Hproto|Hown];
      [by right | left].
    apply andb_true_iff in Hown as [Hown Hkept].
    apply bool_decide_eq_true in Hown. apply bool_decide_eq_true in Hkept.
    rewrite removeFilters_dom, elem_of_difference, elem_of_list_to_set. done.
Qed.

(** X10.  After [addFilters filters], [hasFilters ids] holds exactly when
    every id of [ids] was supplied, was already in the store, or is a name
    of [Object.prototype]; in particular it holds for the supplied ids
    themselves.  Adding the same filters twice is the same as adding them
    once, and adding the empty object changes nothing. *)
Theorem addFilters_then_hasFilters filters prev ids :
  FilterCtx.hasFilters (FilterCtx.addFilters filters prev) ids
  = bool_decide
      (Forall (λ id, id ∈ dom filters ∪ dom prev ∨ inherited id = true) ids)
  ∧ FilterCtx.hasFilters (FilterCtx.addFilters filters prev) (keys filters) = true
  ∧ FilterCtx.addFilters filters (FilterCtx.addFilters filters prev)
    = FilterCtx.addFilters filters prev
  ∧ FilterCtx.addFilters ∅ prev = prev.
Proof.
  assert (Hdom : dom (FilterCtx.addFilters filters prev) = dom filters ∪ dom prev).
  { unfold FilterCtx.addFilters, spread. apply dom_union_L. }
  split; [|split; [|split]].
  - by rewrite hasFilters_bool_decide, Hdom.
  - apply hasFilters_Forall, Forall_forall. intros id Hid.
    left. rewrite Hdom. apply elem_of_union_l. by apply elem_of_keys_dom.
  - unfold FilterCtx.addFilters, spread.
    by rewrite (assoc_L (∪)), (idemp_L (∪)).
  - unfold FilterCtx.addFilters, spread. apply (left_id_L ∅ (∪)).
Qed.

End filters_compose.

(** ** Composing the bulk operations of the search registry *)

Section search_compose.
Implicit Types (instances prev : Search) (id k : string).

(** X11.  Removing a bulk right after adding it removes also the entries
    that were in the store under the same ids before: the result is the
    previous store without the ids of the bulk, and it is the previous store
    itself when none of these ids was in it. *)
Theorem add_then_remove_bulk instances prev :
  removeSearchInstances instances (addSearchInstances instances prev)
  = removeSearchInstances instances prev
  ∧ (dom instances ## dom prev →
     removeSearchInstances instances (addSearchInstances instances prev) = prev).
Proof.
  assert (Heq : removeSearchInstances instances (addSearchInstances instances prev)
                = removeSearchInstances instances prev).
  { apply map_eq. intros k. rewrite !removeSearchInstances_lookup.
    destruct (decide (k ∈ dom instances)) as [Hin|Hnin]; [done|].
    unfold addSearchInstances. rewrite lookup_spread.
    apply not_elem_of_dom in Hnin. by rewrite Hnin. }
  split; [exact Heq|]. intros Hdisj. rewrite Heq.
  apply map_eq. intros k. rewrite removeSearchInstances_lookup.
  destruct (decide (k ∈ dom instances)) as [Hin|Hnin]; [|done].
  symmetry. apply not_elem_of_dom. intros Hk. by apply (Hdisj k).
Qed.

Lemma add_then_remove_bulk_witness :
  removeSearchInstances Examples.store_q_reset
    (addSearchInstances Examples.store_q_reset ∅) = ∅.
Proof.
  destruct (add_then_remove_bulk Examples.store_q_reset ∅) as (_ & Hundo).
  apply Hundo. rewrite dom_empty_L. apply disjoint_empty_r.
Defined.

Lemma addSequentially_list_to_map (entries : list (string * SearchInstance))
    prev :
  NoDup entries.*1 →
  Forall (λ kv, is_Some (hasUrlSync kv.2)) entries →
  Sequences.addSequentially entries prev = list_to_map entries ∪ prev.
Proof.
  unfold Sequences.addSequentially.
  revert prev. induction entries as [|[k e] entries IH]; intros prev Hnd Hflags.
  - simpl. by rewrite (left_id_L ∅ (∪)).
  - rewrite fmap_cons in Hnd. apply NoDup_cons in Hnd as [Hk Hnd].
    apply Forall_cons in Hflags as [[b Hb] Hflags].
    simpl in Hb, Hk. cbn [foldl fst snd]. rewrite (IH _ Hnd Hflags).
    unfold addSearchInstance. rewrite Hb. simpl.
    replace {| query := query e; hasUrlSync := Some b |} with e
      by (destruct e; simpl in *; congruence).
    rewrite <- insert_union_l.
    symmetry. apply insert_union_r. by apply not_elem_of_list_to_map_1.
Qed.

(** X12.  When every supplied entry carries a [hasUrlSync] flag,
    [addSearchInstances] gives the store that calling [addSearchInstance]
    once per supplied entry gives. *)
Theorem addSearchInstances_as_sequence instances prev :
  (∀ id e, instances !! id = Some e → is_Some (hasUrlSync e)) →
  Sequences.addSequentially (map_to_list instances) prev
  = addSearchInstances instances prev.
Proof.
  intros Hflags. rewrite addSequentially_list_to_map.
  - by rewrite list_to_map_to_list.
  - apply NoDup_fst_map_to_list.
  - apply Forall_forall. intros [k e] Hin.
    apply elem_of_map_to_list in Hin. by apply (Hflags k).
Qed.

Lemma addSearchInstances_as_sequence_witness :
  Sequences.addSequentially (map_to_list Examples.store_q_p) Examples.store_q_old
  = addSearchInstances Examples.store_q_p Examples.store_q_old.
Proof.
  apply addSearchInstances_as_sequence. intros id e.
  unfold Examples.store_q_p. rewrite lookup_insert.
  case_decide; [intros [= <-]; by eexists|].
  rewrite lookup_singleton. case_decide; [intros [= <-]; by eexists | done].
Defined.

End search_compose.

(** ** Parameters of the location *)

Section location.
Implicit Types (entries : list (string * string)) (k name : string).

Lemma get_cons name k v entries :
  get name ((k, v) :: entries)
  = if decide (k = name) then Some v else get name entries.
Proof.
  unfold get. simpl. destruct (decide (k = name)) as [Heq|Hne].
  - by rewrite bool_decide_eq_true_2.
  - by rewrite bool_decide_eq_false_2.
Qed.

Lemma fromEntries_snoc entries k v :
  fromEntries (entries ++ [(k, v)]) = <[k := v]> (fromEntries entries).
Proof. unfold fromEntries. by rewrite foldl_snoc. Qed.

(** [Object.fromEntries] keeps, for a name that occurs several times, the
    value of its last occurrence; [get] returns that of the first. *)
Lemma fromEntries_lookup entries name :
  fromEntries entries !! name = get name (reverse entries).
Proof.
  induction entries as [|[k v] entries IH] using rev_ind; [done|].
  rewrite fromEntries_snoc, reverse_snoc, get_cons, lookup_insert.
  by destruct (decide (k = name)).
Qed.

Lemma get_elem_of name entries v :
  get name entries = Some v → (name, v) ∈ entries.
Proof.
  induction entries as [|[k w] entries IH]; [done|].
  rewrite get_cons. destruct (decide (k = name)) as [->|Hne].
  - intros [= ->]. left.
  - intros Hget. right. by apply IH.
Qed.

Lemma get_None name entries : get name entries = None ↔ name ∉ entries.*1.
Proof.
  induction entries as [|[k w] entries IH].
  - split; [intros _; apply not_elem_of_nil | done].
  - rewrite get_cons, fmap_cons, not_elem_of_cons. simpl.
    destruct (decide (k = name)) as [->|Hne].
    + split; [done | intros [Hne _]; by destruct Hne].
    + rewrite IH. split; [intros Hnin; split; [congruence | done] | tauto].
Qed.

(** With one value per name, the first and the last occurrence agree. *)
Lemma get_reverse_NoDup name entries :
  NoDup entries.*1 → get name (reverse entries) = get name entries.
Proof.
  intros Hnd. destruct (get name entries) as [v|] eqn:Hget.
  - apply get_elem_of in Hget as Hin.
    destruct (get name (reverse entries)) as [w|] eqn:Hrev.
    + apply get_elem_of in Hrev. rewrite elem_of_reverse in Hrev.
      pose proof (elem_of_list_to_map_1 (M := gmap string) entries name v Hnd Hin)
        as Hv.
      pose proof (elem_of_list_to_map_1 (M := gmap string) entries name w Hnd Hrev)
        as Hw.
      congruence.
    + apply get_None in Hrev. exfalso. apply Hrev.
      rewrite fmap_reverse, elem_of_reverse.
      apply list_elem_of_fmap. by exists (name, v).
  - apply get_None in Hget. apply get_None.
    by rewrite fmap_reverse, elem_of_reverse.
Qed.

End location.

(** ** One entry pushed to the URL *)

Section sync_one.
Implicit Types (searchInstances prev : Search) (loc : Location) (id k : string).

Lemma addSearchInstance_getSearchInstance_eq prev id (q : SearchValue)
    (sync : bool) :
  getSearchInstance (addSearchInstance id q sync prev) id
  = Some (Copy {| query := q; hasUrlSync := Some sync |}).
Proof.
  apply getSearchInstance_own, lookup_insert_eq.
Qed.

(** X13.  With the flag off [updateUrlParam] requests nothing.  With the
    flag on, and an [id] that is a key of the store or no name of
    [Object.prototype], it requests exactly one navigation, to the current
    path, in which [id] carries the stored payload (the empty string when
    the payload is null or [id] is not in the store) and every other name
    carries the value of its last occurrence in the current URL. *)
Theorem updateUrlParam_one_request searchInstances loc id :
  updateUrlParam searchInstances loc id false = []
  ∧ ((inherited id = true → is_Some (searchInstances !! id)) →
     ∃ params : gmap string string,
       updateUrlParam searchInstances loc id true
       = [ {| href_pathname := pathname loc; href_params := params |} ]
       ∧ ∀ k, params !! k
              = if decide (k = id)
                then Some (match searchInstances !! id with
                           | Some e => default "" (value (query e))
                           | None => ""
                           end)
                else get k (reverse (urlSearchParams loc))).
Proof.
  split; [reflexivity|]. intros _.
  eexists. split; [apply updateUrlParam_enabled|].
  intros k. rewrite lookup_insert, paramValue_lookup.
  destruct (decide (id = k)) as [->|Hne].
  - by rewrite decide_True.
  - rewrite decide_False by congruence. apply fromEntries_lookup.
Qed.

Lemma updateUrlParam_one_request_witness :
  ∃ params : gmap string string,
    updateUrlParam Examples.store_q_p Examples.potions_page "p" true
    = [ {| href_pathname := "/items"; href_params := params |} ]
    ∧ params !! "p" = Some "1"
    ∧ params !! "q" = Some "potions".
Proof.
  destruct (updateUrlParam_one_request
              Examples.store_q_p Examples.potions_page "p")
    as (_ & Hon).
  destruct Hon as (params & Hpush & Hparams); [discriminate|].
  exists params. split; [exact Hpush|]. split.
  - rewrite Hparams. rewrite decide_True by done. reflexivity.
  - rewrite Hparams. rewrite decide_False by discriminate. reflexivity.
Defined.

Lemma initialQuery_default loc id :
  default "" (value (initialQuery loc id))
  = default "" (get id (urlSearchParams loc)).
Proof.
  unfold initialQuery. destruct (get id (urlSearchParams loc)) as [s|]; [|done].
  simpl. destruct (String.eqb_spec s ""); simpl; congruence.
Qed.

(** X14.  The query a [SearchComponent] registers on mount is the first
    value of the parameter [id] in the URL, and null when the parameter is
    missing or empty: the registered payload is never the empty string. *)
Theorem effect_seeds_from_url searchInstances loc id (sync : bool) prev :
  getSearchInstance
    (effect (SearchProvider searchInstances loc) loc id sync prev) id
  = Some (Copy {| query := initialQuery loc id; hasUrlSync := Some sync |})
  ∧ value (initialQuery loc id)
    = match get id (urlSearchParams loc) with
      | Some s => if decide (s = "") then None else Some s
      | None => None
      end
  ∧ value (initialQuery loc id) ≠ Some "".
Proof.
  assert (Hval : value (initialQuery loc id)
                 = match get id (urlSearchParams loc) with
                   | Some s => if decide (s = "") then None else Some s
                   | None => None
                   end).
  { unfold initialQuery. destruct (get id (urlSearchParams loc)) as [s|]; [|done].
    simpl. destruct (String.eqb_spec s ""), (decide (s = "")); simpl; congruence. }
  split; [apply addSearchInstance_getSearchInstance_eq|]. split; [exact Hval|].
  rewrite Hval. destruct (get id (urlSearchParams loc)) as [s|]; [|done].
  destruct (decide (s = "")); congruence.
Qed.

End sync_one.

(** ** The life cycle of a [SearchComponent] *)

Section component.
Implicit Types (searchInstances prev : Search) (loc : Location) (id k : string).

(** X15.  Unmounting after mounting leaves the store without an entry
    under [id] ([hasSearchInstance] then answers for [id] as on the empty
    store: false, except for a name of [Object.prototype]): the previous
    store when [id] was not registered before the mount, and the previous
    store minus an entry that another component had registered under the
    same id otherwise. *)
Theorem effect_then_cleanup searchInstances loc id (sync : bool) prev :
  cleanup (SearchProvider searchInstances loc) id
    (effect (SearchProvider searchInstances loc) loc id sync prev)
  = removeSearchInstance id prev
  ∧ hasSearchInstance
      (cleanup (SearchProvider searchInstances loc) id
         (effect (SearchProvider searchInstances loc) loc id sync prev)) id
    = inherited id
  ∧ (prev !! id = None →
     cleanup (SearchProvider searchInstances loc) id
       (effect (SearchProvider searchInstances loc) loc id sync prev)
     = prev).
Proof.
  assert (Heq : cleanup (SearchProvider searchInstances loc) id
                  (effect (SearchProvider searchInstances loc) loc id sync prev)
                = removeSearchInstance id prev).
  { unfold cleanup, effect. simpl.
    unfold removeSearchInstance, addSearchInstance. apply delete_insert_eq. }
  split; [exact Heq|]. rewrite Heq. unfold removeSearchInstance. split.
  - unfold hasSearchInstance, has_key. rewrite lookup_delete_eq.
    rewrite bool_decide_eq_false_2; [done|]. by intros [? ?].
  - intros Hfresh. by apply delete_id.
Qed.

Lemma effect_then_cleanup_witness :
  cleanup (SearchProvider Examples.store_q_old Examples.potions_page) "p"
    (effect (SearchProvider Examples.store_q_old Examples.potions_page)
       Examples.potions_page "p" false Examples.store_q_old)
  = Examples.store_q_old.
Proof.
  destruct (effect_then_cleanup Examples.store_q_old Examples.potions_page
              "p" false Examples.store_q_old) as (_ & _ & Hfresh).
  apply Hfresh. apply lookup_singleton_ne. discriminate.
Defined.

(** X16.  A synchronized component that has just been mounted and pushes
    its entry writes back what it read: the parameter [id] of the request is
    the first value of [id] in the URL, or the empty string when the URL has
    no such parameter.  When the names of the URL are pairwise distinct and
    [id] is one of them, the requested parameters are those of the URL. *)
Theorem seed_then_sync searchInstances loc id prev :
  updateUrlParam
    (effect (SearchProvider searchInstances loc) loc id true prev) loc id true
  = [ {| href_pathname := pathname loc;
         href_params := <[id := default "" (get id (urlSearchParams loc))]>
                          (currentParams loc) |} ]
  ∧ (NoDup (urlSearchParams loc).*1 → id ∈ (urlSearchParams loc).*1 →
     updateUrlParam
       (effect (SearchProvider searchInstances loc) loc id true prev) loc id true
     = [ {| href_pathname := pathname loc; href_params := currentParams loc |} ]).
Proof.
  assert (Hpush : updateUrlParam
                    (effect (SearchProvider searchInstances loc) loc id true prev)
                    loc id true
                  = [ {| href_pathname := pathname loc;
                         href_params :=
                           <[id := default "" (get id (urlSearchParams loc))]>
                             (currentParams loc) |} ]).
  { rewrite updateUrlParam_enabled, paramValue_lookup.
    unfold effect. simpl. unfold addSearchInstance.
    rewrite lookup_insert_eq. simpl. by rewrite initialQuery_default. }
  split; [exact Hpush|]. intros Hnd Hin. rewrite Hpush. do 2 f_equal.
  apply insert_id. unfold currentParams.
  rewrite fromEntries_lookup, get_reverse_NoDup by done.
  destruct (get id (urlSearchParams loc)) as [v|] eqn:Hget; [done|].
  by apply get_None in Hget.
Qed.

Lemma seed_then_sync_witness :
  updateUrlParam
    (effect (SearchProvider ∅ Examples.potions_page)
       Examples.potions_page "q" true ∅) Examples.potions_page "q" true
  = [ {| href_pathname := "/items";
         href_params := currentParams Examples.potions_page |} ].
Proof.
  destruct (seed_then_sync ∅ Examples.potions_page "q" ∅) as (_ & Hsame).
  apply Hsame.
  - simpl. apply NoDup_cons. split.
    + rewrite list_elem_of_singleton. discriminate.
    + apply NoDup_singleton.
  - simpl. left.
Defined.

(** X17.  [handleKeyDown] reacts to Enter only: any other key queues no
    change and requests no navigation.  On Enter the typed text becomes the
    query of [id] (the flag of the entry being the truthiness of its
    previous flag); a component without URL sync requests no navigation,
    and the navigation a synchronized component requests does not depend on
    the typed text. *)
Theorem handleKeyDown_effects searchInstances loc id (sync : bool)
    (e : KeyboardEvent) :
  (key e ≠ "Enter" →
   (handleKeyDown (SearchProvider searchInstances loc) id sync e).2 = []
   ∧ ∀ prev, (handleKeyDown (SearchProvider searchInstances loc) id sync e).1 prev
             = prev)
  ∧ (key e = "Enter" →
     ∀ prev,
       getSearchInstance
         ((handleKeyDown (SearchProvider searchInstances loc) id sync e).1 prev) id
       = Some (Copy {| query := {| value := Some (currentTarget_value e) |};
                       hasUrlSync :=
                         Some (or_false (prev !! id ≫= hasUrlSync)) |}))
  ∧ (handleKeyDown (SearchProvider searchInstances loc) id false e).2 = []
  ∧ (∀ typed,
       (handleKeyDown (SearchProvider searchInstances loc) id sync
          {| key := key e; currentTarget_value := typed |}).2
       = (handleKeyDown (SearchProvider searchInstances loc) id sync e).2).
Proof.
  unfold handleKeyDown. split; [|split; [|split]].
  - intros Hkey. apply String.eqb_neq in Hkey. by rewrite Hkey.
  - intros Hkey prev. apply String.eqb_eq in Hkey. rewrite Hkey. simpl.
    apply getSearchInstance_own, lookup_insert_eq.
  - by destruct (String.eqb (key e) "Enter").
  - intros typed. simpl. by destruct (String.eqb (key e) "Enter").
Qed.

Lemma handleKeyDown_effects_witness :
  (handleKeyDown (SearchProvider Examples.store_q_old Examples.items_page)
     "q" true {| key := "a"; currentTarget_value := "potion" |}).2 = []
  ∧ getSearchInstance
      ((handleKeyDown (SearchProvider Examples.store_q_old Examples.items_page)
          "q" true {| key := "Enter"; currentTarget_value := "potion" |}).1
         Examples.store_q_old) "q"
    = Some (Copy {| query := {| value := Some "potion" |};
                    hasUrlSync := Some true |}).
Proof.
  split.
  - destruct (handleKeyDown_effects Examples.store_q_old Examples.items_page
                "q" true {| key := "a"; currentTarget_value := "potion" |})
      as (Hother & _).
    apply Hother. discriminate.
  - destruct (handleKeyDown_effects Examples.store_q_old Examples.items_page
                "q" true {| key := "Enter"; currentTarget_value := "potion" |})
      as (_ & Henter & _).
    rewrite (Henter eq_refl Examples.store_q_old).
    unfold Examples.store_q_old. by rewrite lookup_singleton_eq.
Defined.

End component.

(** ** Resetting filters writes the entry objects in place *)

Section filter_refs.
Context {V : Type}.
Implicit Types (heap : FilterRefs.Heap V) (prev updated : FilterRefs.FiltersRef)
  (filterIds : list string) (id k : string) (r : nat).

Lemma read_lookup heap prev k :
  FilterRefs.read heap prev !! k = prev !! k ≫= λ r, heap !! r.
Proof. unfold FilterRefs.read. apply lookup_omap. Qed.

Lemma refs_resetValue_lookup updated heap id r :
  FilterRefs.resetValue updated heap id !! r
  = if decide (updated !! id = Some r)
    then (λ f, {| FilterCtx.value := None;
                  FilterCtx.category := FilterCtx.category f |}) <$> heap !! r
    else heap !! r.
Proof.
  unfold FilterRefs.resetValue. destruct (updated !! id) as [r'|] eqn:Hid.
  - rewrite lookup_alter. destruct (decide (r' = r)) as [->|Hne].
    + by rewrite decide_True.
    + rewrite decide_False; [done | congruence].
  - by rewrite decide_False.
Qed.

(** The objects written by the loop are those some listed id refers to. *)
Lemma refs_foldl_resetValue_lookup updated filterIds heap r :
  foldl (FilterRefs.resetValue updated) heap filterIds !! r
  = if decide (Exists (λ id, updated !! id = Some r) filterIds)
    then (λ f, {| FilterCtx.value := None;
                  FilterCtx.category := FilterCtx.category f |}) <$> heap !! r
    else heap !! r.
Proof.
  revert heap. induction filterIds as [|id filterIds IH]; intros heap; cbn [foldl].
  - rewrite decide_False; [done|]. intros Hex. by apply Exists_nil in Hex.
  - rewrite IH, refs_resetValue_lookup.
    destruct (decide (Exists (λ id', updated !! id' = Some r) filterIds))
      as [Hex|Hnex];
      destruct (decide (updated !! id = Some r)) as [Hid|Hnid];
      destruct (decide (Exists (λ id', updated !! id' = Some r) (id :: filterIds)))
      as [Hcons|Hncons];
      try done.
    + by destruct (heap !! r).
    + exfalso. apply Hncons. by apply Exists_cons_tl.
    + exfalso. apply Hncons. by apply Exists_cons_tl.
    + exfalso. apply Hncons. by apply Exists_cons_hd.
    + apply Exists_cons in Hcons. tauto.
Qed.

Lemma refs_resetFilters_store filterIds prev heap :
  (FilterRefs.resetFilters filterIds prev heap).2 = prev.
Proof. unfold FilterRefs.resetFilters, spread. simpl. apply (left_id_L ∅ (∪)). Qed.

Lemma refs_resetFilters_heap filterIds prev heap :
  (FilterRefs.resetFilters filterIds prev heap).1
  = foldl (FilterRefs.resetValue prev) heap filterIds.
Proof.
  unfold FilterRefs.resetFilters, spread. simpl. by rewrite (left_id_L ∅ (∪)).
Qed.

(** X18.  [resetFilters] returns a store holding the very references of
    the previous one and writes the objects they refer to: after the call,
    the previous snapshot read again shows a null payload under every
    listed id too, and it shows in all what the returned store shows. *)
Theorem resetFilters_writes_previous_snapshot filterIds prev heap :
  (FilterRefs.resetFilters filterIds prev heap).2 = prev
  ∧ FilterRefs.read (FilterRefs.resetFilters filterIds prev heap).1 prev
    = FilterRefs.read (FilterRefs.resetFilters filterIds prev heap).1
        (FilterRefs.resetFilters filterIds prev heap).2
  ∧ (∀ k, k ∈ filterIds →
       FilterRefs.read (FilterRefs.resetFilters filterIds prev heap).1 prev !! k
       = (λ f, {| FilterCtx.value := None;
                  FilterCtx.category := FilterCtx.category f |})
           <$> FilterRefs.read heap prev !! k).
Proof.
  split; [apply refs_resetFilters_store|]. split.
  - by rewrite refs_resetFilters_store.
  - intros k Hk. rewrite refs_resetFilters_heap, !read_lookup.
    destruct (prev !! k) as [r|] eqn:Hr; [|done]. simpl.
    rewrite refs_foldl_resetValue_lookup. rewrite decide_True; [done|].
    apply Exists_exists. by exists k.
Qed.

(** X19.  When no two ids of the store refer to the same object, what
    [resetFilters] leaves to read is what the reset computed on the values
    gives: a null payload under the listed ids, every other entry as it
    was. *)
Theorem resetFilters_without_sharing filterIds prev heap :
  (∀ a b r, prev !! a = Some r → prev !! b = Some r → a = b) →
  FilterRefs.read (FilterRefs.resetFilters filterIds prev heap).1
    (FilterRefs.resetFilters filterIds prev heap).2
  = FilterCtx.resetFilters filterIds (FilterRefs.read heap prev).
Proof.
  intros Hinj. apply map_eq. intros k.
  rewrite refs_resetFilters_store, refs_resetFilters_heap, resetFilters_lookup,
    !read_lookup.
  destruct (prev !! k) as [r|] eqn:Hr; simpl.
  - rewrite refs_foldl_resetValue_lookup.
    destruct (decide (Exists (λ id, prev !! id = Some r) filterIds)) as [Hex|Hnex];
      destruct (decide (k ∈ filterIds)) as [Hin|Hnin]; try done.
    + apply Exists_exists in Hex as (id & Hid & Hidr).
      by rewrite (Hinj k id r Hr Hidr) in Hnin.
    + exfalso. apply Hnex, Exists_exists. by exists k.
  - by destruct (decide (k ∈ filterIds)).
Qed.

(** X20.  When two ids refer to the same object, resetting one of them
    resets the other as well. *)
Theorem resetFilters_shared_object prev heap (a b : string) r
    (f : FilterCtx.FilterValue V) :
  prev !! a = Some r → prev !! b = Some r → heap !! r = Some f →
  FilterRefs.read (FilterRefs.resetFilters [a] prev heap).1
    (FilterRefs.resetFilters [a] prev heap).2 !! b
  = Some {| FilterCtx.value := None; FilterCtx.category := FilterCtx.category f |}.
Proof.
  intros Ha Hb Hf.
  pose proof (refs_foldl_resetValue_lookup prev [a] heap r) as Hwritten.
  rewrite Hf, decide_True in Hwritten by (by apply Exists_cons_hd).
  rewrite refs_resetFilters_store, refs_resetFilters_heap, read_lookup, Hb.
  exact Hwritten.
Qed.

End filter_refs.

Lemma resetFilters_writes_previous_snapshot_witness :
  FilterRefs.read
    (FilterRefs.resetFilters ["a"] Examples.separate_refs Examples.two_objects).1
    Examples.separate_refs !! "a"
  = Some {| FilterCtx.value := None; FilterCtx.category := Some "status" |}.
Proof.
  destruct (resetFilters_writes_previous_snapshot
              ["a"] Examples.separate_refs Examples.two_objects)
    as (_ & _ & Hlisted).
  rewrite Hlisted by left. reflexivity.
Defined.

Lemma resetFilters_without_sharing_witness :
  FilterRefs.read
    (FilterRefs.resetFilters ["a"] Examples.separate_refs Examples.two_objects).1
    (FilterRefs.resetFilters ["a"] Examples.separate_refs Examples.two_objects).2
  = FilterCtx.resetFilters ["a"]
      (FilterRefs.read Examples.two_objects Examples.separate_refs).
Proof.
  apply resetFilters_without_sharing. intros a b r.
  unfold Examples.separate_refs. rewrite !lookup_insert, !lookup_singleton.
  intros Ha Hb. repeat case_decide; congruence.
Defined.

Lemma resetFilters_shared_object_witness :
  FilterRefs.read
    (FilterRefs.resetFilters ["a"] Examples.shared_refs Examples.two_objects).1
    (FilterRefs.resetFilters ["a"] Examples.shared_refs Examples.two_objects).2
    !! "b"
  = Some {| FilterCtx.value := None; FilterCtx.category := Some "status" |}.
Proof.
  apply (resetFilters_shared_object Examples.shared_refs Examples.two_objects
           "a" "b" 0
           {| FilterCtx.value := Some "active";
              FilterCtx.category := Some "status" |});
    reflexivity.
Defined.

Section filter_refs_compose.
Context {V : Type}.
Implicit Types (heap : FilterRefs.Heap V) (filters prev : FilterRefs.FiltersRef)
  (filterIds : list string) (k : string).

(** X21.  The entry objects supplied to [addFilters] are stored as they
    are, so a later [resetFilters] writes them: the object the caller
    supplied, read again after the reset, has a null payload under every
    listed id. *)
Theorem addFilters_then_resetFilters_writes_argument filters prev heap
    filterIds k :
  k ∈ filterIds →
  FilterRefs.read
    (FilterRefs.resetFilters filterIds
       (FilterRefs.addFilters filters prev heap).2
       (FilterRefs.addFilters filters prev heap).1).1 filters !! k
  = (λ f, {| FilterCtx.value := None;
             FilterCtx.category := FilterCtx.category f |})
      <$> FilterRefs.read heap filters !! k.
Proof.
  intros Hk. unfold FilterRefs.addFilters. cbn [fst snd].
  rewrite refs_resetFilters_heap, !read_lookup.
  destruct (filters !! k) as [r|] eqn:Hr; [|done].
  change (foldl (FilterRefs.resetValue (spread prev filters)) heap filterIds !! r
          = (λ f, {| FilterCtx.value := None;
                     FilterCtx.category := FilterCtx.category f |})
              <$> heap !! r).
  rewrite refs_foldl_resetValue_lookup. rewrite decide_True; [done|].
  apply Exists_exists. exists k. split; [done|].
  by rewrite lookup_spread, Hr.
Qed.

End filter_refs_compose.

Lemma addFilters_then_resetFilters_writes_argument_witness :
  FilterRefs.read
    (FilterRefs.resetFilters ["a"]
       (FilterRefs.addFilters Examples.separate_refs ∅ Examples.two_objects).2
       (FilterRefs.addFilters Examples.separate_refs ∅ Examples.two_objects).1).1
    Examples.separate_refs !! "a"
  = Some {| FilterCtx.value := None; FilterCtx.category := Some "status" |}.
Proof.
  rewrite (addFilters_then_resetFilters_writes_argument
             Examples.separate_refs ∅ Examples.two_objects ["a"] "a")
    by left.
  reflexivity.
Defined.

(** ** Removing all, and reading what is not there *)

Section search_misc.
Implicit Types (searchInstances prev : Search) (loc : Location) (id k : string).

(** X22.  [hasSearchInstance] and [getSearchInstance] agree: an id is
    reported present exactly when [getSearchInstance] returns an object.
    For a key of the store that object is a copy of the stored entry; for a
    name of [Object.prototype] that is no key of the store it is the object
    with both fields [undefined]; otherwise nothing is returned.  So on the
    empty store, and on the store left by [removeAllSearchInstances], the
    names of [Object.prototype] and only they are reported present. *)
Theorem has_agrees_with_get searchInstances id :
  hasSearchInstance searchInstances id
  = bool_decide (is_Some (getSearchInstance searchInstances id))
  ∧ getSearchInstance searchInstances id
    = match searchInstances !! id with
      | Some e => Some (Copy e)
      | None => if inherited id then Some Hollow else None
      end
  ∧ getSearchInstance ∅ id = (if inherited id then Some Hollow else None)
  ∧ hasSearchInstance (removeAllSearchInstances searchInstances) id
    = inherited id.
Proof.
  split; [|split; [|split]].
  - unfold hasSearchInstance, has_key. rewrite getSearchInstance_lookup.
    destruct (searchInstances !! id) as [e|]; [|destruct (inherited id)].
    + rewrite (bool_decide_eq_true_2 (is_Some (Some e))) by (by eexists).
      by rewrite (bool_decide_eq_true_2 (is_Some (Some (Copy e))))
        by (by eexists).
    + rewrite (bool_decide_eq_true_2 (is_Some (Some Hollow))) by (by eexists).
      apply orb_true_r.
    + rewrite (bool_decide_eq_false_2 (is_Some (@None SearchInstance)))
        by (by intros [? ?]).
      by rewrite (bool_decide_eq_false_2 (is_Some (@None Retrieved)))
        by (by intros [? ?]).
  - apply getSearchInstance_lookup.
  - by rewrite getSearchInstance_lookup, lookup_empty.
  - unfold hasSearchInstance, has_key, removeAllSearchInstances.
    rewrite lookup_empty. rewrite bool_decide_eq_false_2; [done|].
    by intros [? ?].
Qed.

(** X23.  Bulk removal generalises the other removals: removing the ids of
    the store itself empties it like [removeAllSearchInstances], removing
    the ids of a one-entry object is [removeSearchInstance], and removing
    the ids of the empty object changes nothing. *)
Theorem removeSearchInstances_special_cases prev id (e : SearchInstance) :
  removeSearchInstances prev prev = removeAllSearchInstances prev
  ∧ removeSearchInstances {[ id := e ]} prev = removeSearchInstance id prev
  ∧ removeSearchInstances ∅ prev = prev.
Proof.
  split; [|split]; apply map_eq; intros k; rewrite removeSearchInstances_lookup.
  - unfold removeAllSearchInstances. rewrite lookup_empty.
    destruct (decide (k ∈ dom prev)) as [Hin|Hnin]; [done|].
    by apply not_elem_of_dom.
  - unfold removeSearchInstance. rewrite dom_singleton_L, lookup_delete.
    destruct (decide (k ∈ ({[id]} : gset string))) as [Hin|Hnin];
      destruct (decide (id = k)) as [Heq|Hne]; try done.
    + apply elem_of_singleton in Hin. congruence.
    + exfalso. apply Hnin. by apply elem_of_singleton.
  - rewrite dom_empty_L. by rewrite decide_False by apply not_elem_of_empty.
Qed.

(** X24.  A [SearchComponent] whose context is the one [useSearchContext]
    returns outside every provider does nothing: mounting registers no
    entry, and Enter neither changes a store nor requests a navigation,
    also with URL sync on. *)
Theorem component_outside_provider (ctx : SearchContextValue) loc id
    (sync : bool) (e : KeyboardEvent) prev :
  useSearchContext None = Return ctx →
  effect ctx loc id sync prev = prev
  ∧ (handleKeyDown ctx id sync e).1 prev = prev
  ∧ (handleKeyDown ctx id sync e).2 = []
  ∧ ctx_getSearchInstance ctx id = None.
Proof.
  intros [= <-]. unfold effect, handleKeyDown. simpl.
  split; [done|]. destruct (String.eqb (key e) "Enter"); [|done].
  simpl. by destruct sync.
Qed.

Lemma component_outside_provider_witness :
  effect defaultValues Examples.potions_page "q" true ∅ = ∅
  ∧ (handleKeyDown defaultValues "q" true
       {| key := "Enter"; currentTarget_value := "potion" |}).2 = [].
Proof.
  destruct (component_outside_provider defaultValues Examples.potions_page
              "q" true {| key := "Enter"; currentTarget_value := "potion" |} ∅
              eq_refl)
    as (Hmount & _ & Hnav & _).
  split; [exact Hmount | exact Hnav].
Defined.

End search_misc.
